(** * Ax = b Monte Carlo solver and its BOINC validator

    A shallow embedding of

    - [server/axb_validator.cpp]: [parse_result] and [check_set], the
      merge of partial solutions, [compare_partial_solutions] and
      [compare_results];
    - [src/Axb-MonteCarlo.c]: [prepare_iteration_form], [rand_double],
      [random_walk], [compute_solution] and what [write_output] prints;
    - [src/simpleAxbMC.c]: [prepare_iteration_form], [random_walk] and
      [solve_monte_carlo];
    - [server/pi_validator.cpp]: [compare_results];
    - [unnamed/part_003], the PI application: [compute_pi] with the file
      functions it calls.

    C [double] is IEEE 754 binary64, which is what Rocq's primitive
    [float] is: every arithmetic operation and comparison below is the
    machine operation of the C program, each rounded to binary64 (no
    extended precision, no fused multiply-add), NaN and signed zeros
    included.  C [int] and [long] are taken as [Z]: the few sums and
    differences of indices and counts the programs compute are assumed
    not to overflow.  The streams written by [printf] and [log_messages]
    are left out; they do not feed back into the computation. *)

From Stdlib Require Import ZArith List Bool Lia Floats.
From stdpp Require Import gmap list.

#[local] Set Warnings "-inexact-float".
#[local] Open Scope Z_scope.

(** [(double) k] for an [int] or [long] [k]. *)
Definition double_of_int (k : Z) : float :=
  if k <? 0 then PrimFloat.opp (PrimFloat.of_uint63 (Uint63.of_Z (- k)))
  else PrimFloat.of_uint63 (Uint63.of_Z k).

(** The index list of [for (int idx = lo; idx <= hi; idx++)]. *)
Definition index_range (lo hi : Z) : list Z := seqZ lo (hi - lo + 1).

(* ===================================================================== *)
(** ** The validator: [server/axb_validator.cpp] *)
(* ===================================================================== *)

Module Validator.

(** [struct PartialSolution]. *)
Record PartialSolution := mkPartialSolution {
  start_idx : Z;
  end_idx : Z;
  values : list float
}.

(** What [parse_result] can get out of the file behind a path: [fopen]
    fails ([Unreadable]), or the file yields the two integers of
    [fscanf(fp, "%d %d", ...)] (or not: [None]) followed by the doubles
    that successive [fscanf(fp, "%lf", ...)] calls convert. *)
Inductive OUTPUT_FILE_INFO :=
| Unreadable
| Readable (range : option (Z * Z)) (numbers : list float).

(** The three ways [parse_result] ends: [return 0] with [sol] filled,
    [return -1], or the exception of [sol.values.resize(num_components)]
    for a negative count (the [int] converts to a [size_t] above
    [max_size()]), which nothing in the validator catches. *)
Inductive parse_outcome :=
| ParseOk (sol : PartialSolution)
| ParseError
| ParseThrow.

Definition parse_result (file : OUTPUT_FILE_INFO) : parse_outcome :=
  match file with
  | Unreadable => ParseError
  | Readable None _ => ParseError
  | Readable (Some (s, e)) numbers =>
      let num_components := e - s + 1 in
      if num_components <? 0 then ParseThrow
      else if Z.of_nat (length numbers) <? num_components then ParseError
      else ParseOk (mkPartialSolution s e (take (Z.to_nat num_components) numbers))
  end.

(** [RESULT] as [check_set] uses it: the [id] (in the range of [int],
    so that the assignment to [canonicalid] keeps it) and what
    [get_output_file_infos] gives ([None] for a non-zero return). *)
Record RESULT := mkRESULT {
  id : Z;
  output_files : option (list OUTPUT_FILE_INFO)
}.

(** The locals [solutions] and [component_coverage] of [check_set]. *)
Record merge_state := mkState {
  solutions : list PartialSolution;
  component_coverage : gmap Z nat
}.

Definition initial_state : merge_state := mkState [] ∅.

Definition no_solution : PartialSolution := mkPartialSolution 0 0 [].

(** [sol.values[idx - sol.start_idx]]. *)
Definition value_at (sol : PartialSolution) (idx : Z) : float :=
  nth (Z.to_nat (idx - start_idx sol)) (values sol) 0%float.

(** Lines 147-151: [diff], [avg] and [error]. *)
Definition consistency_error (a b : float) : float :=
  let diff := PrimFloat.abs (a - b)%float in
  let avg := ((PrimFloat.abs a + PrimFloat.abs b) / 2)%float in
  if PrimFloat.ltb 1e-10%float avg then (diff / avg)%float else diff.

(** [error > 0.01]. *)
Definition inconsistent (a b : float) : bool :=
  PrimFloat.ltb 0.01%float (consistency_error a b).

(** The overlap loop of lines 139-162 over the remaining indices: the
    final value of [valid]. *)
Fixpoint overlap_valid (st : merge_state) (sol : PartialSolution)
    (idxs : list Z) : bool :=
  match idxs with
  | [] => true
  | idx :: rest =>
      match component_coverage st !! idx with
      | Some prev_sol_idx =>
          let prev := nth prev_sol_idx (solutions st) no_solution in
          if inconsistent (value_at sol idx) (value_at prev idx)
          then false
          else overlap_valid st sol rest
      | None => overlap_valid st sol rest
      end
  end.

(** Lines 172-174: [component_coverage[idx] = sol_idx] over the range. *)
Fixpoint mark_covered (cov : gmap Z nat) (sol_idx : nat) (idxs : list Z)
    : gmap Z nat :=
  match idxs with
  | [] => cov
  | idx :: rest => mark_covered (<[idx := sol_idx]> cov) sol_idx rest
  end.

(** Lines 164-174, for a parsed [sol]. *)
Definition add_solution (st : merge_state) (sol : PartialSolution)
    : merge_state :=
  let range := index_range (start_idx sol) (end_idx sol) in
  if overlap_valid st sol range then
    let sol_idx := length (solutions st) in
    mkState (solutions st ++ [sol])
            (mark_covered (component_coverage st) sol_idx range)
  else st.

(** One iteration of the loop over [results] (lines 113-175); [None] is
    the exception escaping from [parse_result]. *)
Definition process_result (st : merge_state) (r : RESULT)
    : option merge_state :=
  match output_files r with
  | None => Some st
  | Some [] => Some st
  | Some (file :: _) =>
      match parse_result file with
      | ParseError => Some st
      | ParseThrow => None
      | ParseOk sol => Some (add_solution st sol)
      end
  end.

Fixpoint process_results (st : merge_state) (results : list RESULT)
    : option merge_state :=
  match results with
  | [] => Some st
  | r :: rest =>
      match process_result st r with
      | Some st' => process_results st' rest
      | None => None
      end
  end.

(** Lines 185-188. *)
Definition max_end_idx (sols : list PartialSolution) : Z :=
  fold_left (fun max_idx sol =>
               if max_idx <? end_idx sol then end_idx sol else max_idx)
            sols 0.

Definition covered (cov : gmap Z nat) (idx : Z) : bool :=
  match cov !! idx with Some _ => true | None => false end.

(** Lines 190-197. *)
Definition complete (st : merge_state) : bool :=
  forallb (covered (component_coverage st))
          (index_range 0 (max_end_idx (solutions st))).

(** Lines 211-215. *)
Definition credit_of (sols : list PartialSolution) : float :=
  fold_left (fun credit sol =>
               let num_components := end_idx sol - start_idx sol + 1 in
               (credit + double_of_int num_components * 10.0)%float)
            sols 0%float.

(** The return value and the three reference parameters after the call. *)
Record check_set_result := mkResult {
  retval : Z;
  canonicalid : Z;
  credit : float;
  retry : bool
}.

(** Lines 177-221, from the state the loop leaves; [canonicalid0] and
    [credit0] are the caller's values, which the failure paths leave
    alone. [results[0]] exists wherever it is read: a solution was
    accepted, so [results] is not empty. *)
Definition conclude (results : list RESULT) (canonicalid0 : Z)
    (credit0 : float) (st : merge_state) : check_set_result :=
  match solutions st with
  | [] => mkResult (-1) canonicalid0 credit0 true
  | _ :: _ =>
      if complete st then
        mkResult 0
                 (match results with r0 :: _ => id r0 | [] => canonicalid0 end)
                 (credit_of (solutions st))
                 false
      else mkResult (-1) canonicalid0 credit0 true
  end.

(** [check_set]; [None] when the exception of [parse_result] ends it. *)
Definition check_set (results : list RESULT) (canonicalid0 : Z)
    (credit0 : float) : option check_set_result :=
  match process_results initial_state results with
  | Some st => Some (conclude results canonicalid0 credit0 st)
  | None => None
  end.

(** The value the merge holds for [idx]: the read of lines 143-148,
    [solutions[component_coverage[idx]].values[idx - start_idx]]. *)
Definition merged_value (st : merge_state) (idx : Z) : option float :=
  match component_coverage st !! idx with
  | Some k =>
      match solutions st !! k with
      | Some sol => values sol !! Z.to_nat (idx - start_idx sol)
      | None => None
      end
  | None => None
  end.

(** The invariant of the loop over [results]: a claimed index points to an
    accepted solution whose range contains it, so the reads
    [solutions[prev_sol_idx]] and [values[prev_local_idx]] are in bounds. *)
Definition coverage_wf (st : merge_state) : Prop :=
  ∀ idx k, component_coverage st !! idx = Some k →
    ∃ sol, solutions st !! k = Some sol
           ∧ start_idx sol ≤ idx ≤ end_idx sol
           ∧ Z.of_nat (length (values sol)) = end_idx sol - start_idx sol + 1.

(** Whether the iteration for [r] appends a solution, and the results of
    the input for which it does: the contributors of a merge.  The code
    keeps no such list; it is what the claims about "accepted" solutions
    talk about. *)
Definition accepts (st : merge_state) (r : RESULT) : bool :=
  match process_result st r with
  | Some st' => (length (solutions st) <? length (solutions st'))%nat
  | None => false
  end.

Fixpoint contributing (st : merge_state) (results : list RESULT)
    : list RESULT :=
  match results with
  | [] => []
  | r :: rest =>
      match process_result st r with
      | Some st' =>
          (if accepts st r then [r] else []) ++ contributing st' rest
      | None => []
      end
  end.

(** [num_components] of a solution. *)
Definition component_count (sol : PartialSolution) : Z :=
  end_idx sol - start_idx sol + 1.

Definition range_of (sol : PartialSolution) : Z * Z :=
  (start_idx sol, end_idx sol).

(** The partial solution a result submits: the range and the numbers of
    its first output file, as they stand in the file. *)
Definition submitted (r : RESULT) : option PartialSolution :=
  match output_files r with
  | Some (Readable (Some (s, e)) numbers :: _) =>
      Some (mkPartialSolution s e numbers)
  | _ => None
  end.

(** A well-formed partial solution: a non-empty range and one value per
    index of it. *)
Definition well_formed (sol : PartialSolution) : bool :=
  (start_idx sol <=? end_idx sol)
  && (Z.of_nat (length (values sol)) =? end_idx sol - start_idx sol + 1).

Definition in_range (sol : PartialSolution) (idx : Z) : bool :=
  (start_idx sol <=? idx) && (idx <=? end_idx sol).

Definition disjoint (s1 s2 : PartialSolution) : bool :=
  (end_idx s1 <? start_idx s2) || (end_idx s2 <? start_idx s1).

Fixpoint pairwise_disjoint (sols : list PartialSolution) : bool :=
  match sols with
  | [] => true
  | s :: rest => forallb (disjoint s) rest && pairwise_disjoint rest
  end.

(** [sols] is a full, non-overlapping partition of [0, n-1] into
    well-formed partial solutions. *)
Definition is_partition (n : Z) (sols : list PartialSolution) : bool :=
  forallb (λ s, well_formed s && (0 <=? start_idx s) && (end_idx s <? n)) sols
  && pairwise_disjoint sols
  && forallb (λ idx, existsb (λ s, in_range s idx) sols) (seqZ 0 n).

(** The loop invariant on a partition: the accepted solutions are the
    submitted ones so far, and an index is claimed by exactly the solution
    whose range holds it. *)
Definition claims_match (sols : list PartialSolution) (st : merge_state)
    : Prop :=
  solutions st = sols
  ∧ ∀ idx k, component_coverage st !! idx = Some k ↔
             ∃ s, sols !! k = Some s ∧ in_range s idx = true.

(** A result whose only output file holds [sol], as the solver writes it. *)
Definition result_with (rid : Z) (sol : PartialSolution) : RESULT :=
  mkRESULT rid
    (Some [Readable (Some (start_idx sol, end_idx sol)) (values sol)]).

(** *** [compare_partial_solutions] and [compare_results] *)

(** The loop over the components of lines 81-94, on the two value
    vectors (of equal size when it runs): [false] at the first component
    whose [error] exceeds [tolerance]. *)
Fixpoint components_agree (tolerance : float) (values1 values2 : list float)
    : bool :=
  match values1, values2 with
  | v1 :: rest1, v2 :: rest2 =>
      if PrimFloat.ltb tolerance (consistency_error v1 v2) then false
      else components_agree tolerance rest1 rest2
  | _, _ => true
  end.

Definition compare_partial_solutions (sol1 sol2 : PartialSolution)
    (tolerance : float) : bool :=
  if negb (start_idx sol1 =? start_idx sol2)
     || negb (end_idx sol1 =? end_idx sol2)
  then false
  else if negb (length (values sol1) =? length (values sol2))%nat then false
  else components_agree tolerance (values sol1) (values sol2).

(** [compare_results] from the two vectors [files1] and [files2] as the
    calls of [get_output_file_infos] (whose return values it ignores)
    leave them: the return value and [match]; [None] when [parse_result]
    throws.  The second file is parsed only if the first one parsed. *)
Definition compare_results (files1 files2 : list OUTPUT_FILE_INFO)
    : option (Z * bool) :=
  match files1, files2 with
  | file1 :: _, file2 :: _ =>
      match parse_result file1 with
      | ParseThrow => None
      | ParseError => Some (0, false)
      | ParseOk sol1 =>
          match parse_result file2 with
          | ParseThrow => None
          | ParseError => Some (0, false)
          | ParseOk sol2 =>
              Some (0, compare_partial_solutions sol1 sol2 0.01%float)
          end
      end
  | _, _ => Some (0, false)
  end.

(** The solution [check_set] gets out of a result, if it gets one. *)
Definition parsed (r : RESULT) : option PartialSolution :=
  match output_files r with
  | Some (file :: _) =>
      match parse_result file with
      | ParseOk sol => Some sol
      | _ => None
      end
  | _ => None
  end.

(** The results [check_set] passes over: no file list, no file, or a
    first file on which [parse_result] returns -1. *)
Definition skipped (r : RESULT) : bool :=
  match output_files r with
  | None => true
  | Some [] => true
  | Some (file :: _) =>
      match parse_result file with
      | ParseError => true
      | _ => false
      end
  end.

(** The results on whose first file [parse_result] throws. *)
Definition throws (r : RESULT) : bool :=
  match output_files r with
  | Some (file :: _) =>
      match parse_result file with
      | ParseThrow => true
      | _ => false
      end
  | _ => false
  end.

End Validator.

(* ===================================================================== *)
(** ** The solver: [src/Axb-MonteCarlo.c] *)
(* ===================================================================== *)

Module Solver.

Definition MAX_DIM : Z := 1000.
Definition DEFAULT_WALKS : Z := 100000.

(** A C array of doubles as the function from index to element; indices
    outside the array are not the program's to read. *)
Definition vector := Z → float.
Definition matrix := Z → Z → float.

Definition vset (v : vector) (i : Z) (x : float) : vector :=
  λ k, if k =? i then x else v k.
Definition mset (m : matrix) (i j : Z) (x : float) : matrix :=
  λ k l, if (k =? i) && (l =? j) then x else m k l.

(** [struct MonteCarloData]. *)
Record MonteCarloData := mkData {
  n : Z;
  A : matrix;
  b : vector;
  C : matrix;
  f : vector;
  row_sum : vector;
  start_idx : Z;
  end_idx : Z;
  num_walks : Z
}.

Definition set_C (data : MonteCarloData) (i j : Z) (x : float) :=
  mkData (n data) (A data) (b data) (mset (C data) i j x) (f data)
         (row_sum data) (start_idx data) (end_idx data) (num_walks data).
Definition set_f (data : MonteCarloData) (i : Z) (x : float) :=
  mkData (n data) (A data) (b data) (C data) (vset (f data) i x)
         (row_sum data) (start_idx data) (end_idx data) (num_walks data).
Definition set_row_sum (data : MonteCarloData) (i : Z) (x : float) :=
  mkData (n data) (A data) (b data) (C data) (f data)
         (vset (row_sum data) i x) (start_idx data) (end_idx data)
         (num_walks data).

(** *** [prepare_iteration_form] *)

(** The body of the loop over [j] (lines 132-137), for row [i]. *)
Definition fill_entry (data : MonteCarloData) (i : Z) (diag : float)
    (j : Z) : MonteCarloData :=
  let data1 :=
    if i =? j then set_C data i j 0%float
    else set_C data i j (PrimFloat.opp (A data i j) / diag)%float in
  set_row_sum data1 i (row_sum data1 i + PrimFloat.abs (C data1 i j))%float.

(** The loop over [j] of lines 131-138. *)
Fixpoint fill_row (data : MonteCarloData) (i : Z) (diag : float)
    (js : list Z) : MonteCarloData :=
  match js with
  | [] => data
  | j :: rest => fill_row (fill_entry data i diag j) i diag rest
  end.

(** Lines 126-138: row [i] once its diagonal element has passed the test. *)
Definition prepare_row (data : MonteCarloData) (i : Z) : MonteCarloData :=
  let diag := A data i i in
  let data1 := set_f data i (b data i / diag)%float in
  let data2 := set_row_sum data1 i 0%float in
  fill_row data2 i diag (seqZ 0 (n data2)).

(** The loop over [i] of lines 118-145: the return value and the struct
    as the function leaves it. *)
Fixpoint prepare_rows (data : MonteCarloData) (rows : list Z)
    : Z * MonteCarloData :=
  match rows with
  | [] => (0, data)
  | i :: rest =>
      let diag := A data i i in
      if PrimFloat.ltb (PrimFloat.abs diag) 1e-12%float then (-1, data)
      else prepare_rows (prepare_row data i) rest
  end.

Definition prepare_iteration_form (data : MonteCarloData)
    : Z * MonteCarloData :=
  prepare_rows data (seqZ 0 (n data)).

(** *** [rand_double] and [random_walk] *)

Definition MAX_STEPS : Z := 10000.
Definition TERMINATION_PROB : float := 0.1%float.

(** The locals of [random_walk], and the number of [rand()] calls made
    since [srand]. *)
Record walk_state := mkWalk {
  walk_sum : float;
  current_state : Z;
  weight : float;
  step : Z;
  calls : N
}.

Section Random.

(** The C library's part: [RAND_MAX], and the value [rand k] that the
    [k]-th call of [rand()] after [srand] returns. *)
Variable RAND_MAX : Z.
Variable rand : N → Z.

(** [(double)rand() / (RAND_MAX + 1.0)], and the advanced call count. *)
Definition rand_double (k : N) : float * N :=
  ((double_of_int (rand k) / (double_of_int RAND_MAX + 1.0))%float, N.succ k).

(** The loop over [j] of lines 179-188: [next_state] and [weight] after
    it.  [next_state] starts as [current_state]. *)
Fixpoint select_next (data : MonteCarloData) (cur : Z) (r cumsum w : float)
    (js : list Z) : Z * float :=
  match js with
  | [] => (cur, w)
  | j :: rest =>
      let cumsum := (cumsum + PrimFloat.abs (C data cur j))%float in
      if PrimFloat.leb r cumsum then
        let w1 :=
          (w * (if PrimFloat.leb 0 (C data cur j) then 1.0 else -1.0))%float in
        let w2 := (w1 * (row_sum data cur / (1.0 - TERMINATION_PROB)))%float in
        (j, w2)
      else select_next data cur r cumsum w rest
  end.

(** The body of the loop over [step] (lines 161-190): the state after
    it, and whether it left by [break]. *)
Definition walk_body (data : MonteCarloData) (st : walk_state)
    : walk_state * bool :=
  let sum1 :=
    (walk_sum st + weight st * f data (current_state st))%float in
  let (u, calls1) := rand_double (calls st) in
  if PrimFloat.ltb u TERMINATION_PROB then
    (mkWalk sum1 (current_state st) (weight st) (step st) calls1, true)
  else if PrimFloat.ltb (row_sum data (current_state st)) 1e-12%float then
    (mkWalk sum1 (current_state st) (weight st) (step st) calls1, true)
  else
    let (u2, calls2) := rand_double calls1 in
    let r := (u2 * row_sum data (current_state st))%float in
    let (next_state, w) :=
      select_next data (current_state st) r 0%float (weight st)
                  (seqZ 0 (n data)) in
    (mkWalk sum1 next_state w (step st) calls2, false).

Definition next_step (st : walk_state) : walk_state :=
  mkWalk (walk_sum st) (current_state st) (weight st) (step st + 1) (calls st).

(** [for (int step = 0; step < MAX_STEPS; step++) { ... }] from the state
    [st]; [None] when [fuel] iterations do not reach the end of the
    loop. *)
Fixpoint walk_loop (fuel : nat) (data : MonteCarloData) (st : walk_state)
    : option walk_state :=
  match fuel with
  | O => None
  | S fuel' =>
      if step st <? MAX_STEPS then
        let (st', broke) := walk_body data st in
        if broke then Some st'
        else walk_loop fuel' data (next_step st')
      else Some st
  end.

Definition walk_start (start_state : Z) (k : N) : walk_state :=
  mkWalk 0%float start_state 1%float 0 k.

(** [random_walk(data, start_state)]: the returned [sum], and the call
    count of [rand()] afterwards. *)
Definition random_walk (data : MonteCarloData) (start_state : Z) (k : N)
    : option (float * N) :=
  match walk_loop (S (Z.to_nat MAX_STEPS)) data (walk_start start_state k) with
  | Some st => Some (walk_sum st, calls st)
  | None => None
  end.

(** The states in which the loop body is entered, in order: each one is
    one accumulation [sum += weight * f[current_state]]. *)
Fixpoint walk_visits (fuel : nat) (data : MonteCarloData) (st : walk_state)
    : list walk_state :=
  match fuel with
  | O => []
  | S fuel' =>
      if step st <? MAX_STEPS then
        let (st', broke) := walk_body data st in
        if broke then [st]
        else st :: walk_visits fuel' data (next_step st')
      else []
  end.

(** [sum += weight * f[current_state]] for an iteration entered in state
    [v]. *)
Definition add_contribution (data : MonteCarloData) (acc : float)
    (v : walk_state) : float :=
  (acc + weight v * f data (current_state v))%float.

(** *** [compute_solution] and [write_output] *)

(** [for (walk = 0; walk < num_walks; walk++) sum += random_walk(data, i)]
    with [count] walks to go. *)
Fixpoint sum_walks (count : nat) (data : MonteCarloData) (i : Z)
    (sum : float) (k : N) : option (float * N) :=
  match count with
  | O => Some (sum, k)
  | S count' =>
      match random_walk data i k with
      | Some (w, k') => sum_walks count' data i (sum + w)%float k'
      | None => None
      end
  end.

(** The loop over [idx] of lines 203-223. *)
Fixpoint compute_components (data : MonteCarloData) (idxs : list Z)
    (x_partial : vector) (k : N) : option (vector * N) :=
  match idxs with
  | [] => Some (x_partial, k)
  | idx :: rest =>
      let i := start_idx data + idx in
      match sum_walks (Z.to_nat (num_walks data)) data i 0%float k with
      | Some (sum, k') =>
          compute_components data rest
            (vset x_partial idx (sum / double_of_int (num_walks data))%float)
            k'
      | None => None
      end
  end.

Definition compute_solution (data : MonteCarloData) (x_partial : vector)
    (k : N) : option (vector * N) :=
  let num_components := end_idx data - start_idx data + 1 in
  compute_components data (seqZ 0 num_components) x_partial k.


(** *** The walk in the words of its description *)

(** [sum_{k <= j} |C[cur][k]|], added up from [k = 0]. *)
Definition prefix_sum (data : MonteCarloData) (cur j : Z) : float :=
  fold_left PrimFloat.add
    (map (λ k, PrimFloat.abs (C data cur k)) (seqZ 0 (j + 1))) 0%float.

(** Cumulative-sum inversion: the first state whose prefix sum reaches
    [r], if there is one. *)
Definition inversion (data : MonteCarloData) (cur : Z) (r : float)
    : option Z :=
  find (λ j, PrimFloat.leb r (prefix_sum data cur j)) (seqZ 0 (n data)).

Definition sign_of (c : float) : float :=
  if PrimFloat.leb 0 c then 1.0%float else (-1.0)%float.

(** [count] successive samples started at state [i]. *)
Fixpoint walk_samples (count : nat) (data : MonteCarloData) (i : Z)
    (k : N) : option (list float * N) :=
  match count with
  | O => Some ([], k)
  | S count' =>
      match random_walk data i k with
      | Some (w, k') =>
          match walk_samples count' data i k' with
          | Some (ws, k'') => Some (w :: ws, k'')
          | None => None
          end
      | None => None
      end
  end.

(** The estimates of the components [start_idx + idx] for the listed
    [idx], each the sum of [num_walks] samples divided by [num_walks], the
    samples drawn component after component. *)
Fixpoint estimates (data : MonteCarloData) (idxs : list Z) (k : N)
    : option (list float * N) :=
  match idxs with
  | [] => Some ([], k)
  | idx :: rest =>
      match walk_samples (Z.to_nat (num_walks data)) data
                         (start_idx data + idx) k with
      | Some (ws, k') =>
          match estimates data rest k' with
          | Some (es, k'') =>
              Some ((fold_left PrimFloat.add ws 0 /
                     double_of_int (num_walks data))%float :: es, k'')
          | None => None
          end
      | None => None
      end
  end.

End Random.

(** The entry of the iteration matrix for the coefficient matrix [a]. *)
Definition entry (a : matrix) (i j : Z) : float :=
  if i =? j then 0%float else (PrimFloat.opp (a i j) / a i i)%float.

(** The right-hand side of the iteration form: what [f], [C] and
    [row_sum] hold, for the rows below [n], after a successful call. *)
Definition iteration_form_of (data data' : MonteCarloData) : Prop :=
  ∀ i, 0 ≤ i < n data →
    f data' i = (b data i / A data i i)%float
    ∧ C data' i i = 0%float
    ∧ (∀ j, 0 ≤ j < n data → j ≠ i →
         C data' i j = (PrimFloat.opp (A data i j) / A data i i)%float)
    ∧ row_sum data' i
      = fold_left PrimFloat.add
          (map (λ j, PrimFloat.abs (C data' i j)) (seqZ 0 (n data))) 0%float.

(** The rows [prepare_iteration_form] gets through: those before the
    first one whose diagonal element fails the test. *)
Fixpoint rows_before_failure (a : matrix) (rows : list Z) : list Z :=
  match rows with
  | [] => []
  | i :: rest =>
      if PrimFloat.ltb (PrimFloat.abs (a i i)) 1e-12%float then []
      else i :: rows_before_failure a rest
  end.

End Solver.

(* ===================================================================== *)
(** ** The stand-alone solver: [src/simpleAxbMC.c] *)
(* ===================================================================== *)

Module Simple.

Definition MAX_DIM : Z := 100.

(** [struct LinearSystem]. *)
Record LinearSystem := mkSystem {
  n : Z;
  A : Solver.matrix;
  b : Solver.vector;
  C : Solver.matrix;
  f : Solver.vector;
  row_sum : Solver.vector;
  x_mc : Solver.vector;
  x_direct : Solver.vector
}.

Definition set_C (sys : LinearSystem) (i j : Z) (x : float) :=
  mkSystem (n sys) (A sys) (b sys) (Solver.mset (C sys) i j x) (f sys)
           (row_sum sys) (x_mc sys) (x_direct sys).
Definition set_f (sys : LinearSystem) (i : Z) (x : float) :=
  mkSystem (n sys) (A sys) (b sys) (C sys) (Solver.vset (f sys) i x)
           (row_sum sys) (x_mc sys) (x_direct sys).
Definition set_row_sum (sys : LinearSystem) (i : Z) (x : float) :=
  mkSystem (n sys) (A sys) (b sys) (C sys) (f sys)
           (Solver.vset (row_sum sys) i x) (x_mc sys) (x_direct sys).

(** The body of the loop over [j], for row [i]. *)
Definition fill_entry (sys : LinearSystem) (i : Z) (diag : float) (j : Z)
    : LinearSystem :=
  let sys1 :=
    if i =? j then set_C sys i j 0%float
    else set_C sys i j (PrimFloat.opp (A sys i j) / diag)%float in
  set_row_sum sys1 i (row_sum sys1 i + PrimFloat.abs (C sys1 i j))%float.

Fixpoint fill_row (sys : LinearSystem) (i : Z) (diag : float) (js : list Z)
    : LinearSystem :=
  match js with
  | [] => sys
  | j :: rest => fill_row (fill_entry sys i diag j) i diag rest
  end.

Definition prepare_row (sys : LinearSystem) (i : Z) : LinearSystem :=
  let diag := A sys i i in
  let sys1 := set_f sys i (b sys i / diag)%float in
  let sys2 := set_row_sum sys1 i 0%float in
  fill_row sys2 i diag (seqZ 0 (n sys2)).

(** The first loop of [prepare_iteration_form]; the second one only
    prints the largest row sum. *)
Fixpoint prepare_rows (sys : LinearSystem) (rows : list Z)
    : Z * LinearSystem :=
  match rows with
  | [] => (0, sys)
  | i :: rest =>
      let diag := A sys i i in
      if PrimFloat.ltb (PrimFloat.abs diag) 1e-12%float then (-1, sys)
      else prepare_rows (prepare_row sys i) rest
  end.

Definition prepare_iteration_form (sys : LinearSystem) : Z * LinearSystem :=
  prepare_rows sys (seqZ 0 (n sys)).

(** The system and its iteration form, seen as the arrays of a
    [MonteCarloData]. *)
Definition same_arrays (sys : LinearSystem) (data : Solver.MonteCarloData)
    : Prop :=
  Solver.n data = n sys ∧ Solver.A data = A sys ∧ Solver.b data = b sys
  ∧ Solver.C data = C sys ∧ Solver.f data = f sys
  ∧ Solver.row_sum data = row_sum sys.

Definition as_data (sys : LinearSystem) : Solver.MonteCarloData :=
  Solver.mkData (n sys) (A sys) (b sys) (C sys) (f sys) (row_sum sys) 0 0 0.

(** *** [random_walk] and [solve_monte_carlo] *)

Definition MAX_WALK_LENGTH : Z := 10000.
Definition TERMINATION_PROB : float := 0.1%float.

Definition set_x_mc (sys : LinearSystem) (i : Z) (x : float) :=
  mkSystem (n sys) (A sys) (b sys) (C sys) (f sys) (row_sum sys)
           (Solver.vset (x_mc sys) i x) (x_direct sys).

Section Random.

Variable RAND_MAX : Z.
Variable rand : N → Z.

(** [(double)rand() / (RAND_MAX + 1.0)], and the advanced call count. *)
Definition rand_double (k : N) : float * N :=
  ((double_of_int (rand k) / (double_of_int RAND_MAX + 1.0))%float, N.succ k).

(** The loop over [j] that chooses the next state. *)
Fixpoint select_next (sys : LinearSystem) (cur : Z) (r cumsum w : float)
    (js : list Z) : Z * float :=
  match js with
  | [] => (cur, w)
  | j :: rest =>
      let cumsum := (cumsum + PrimFloat.abs (C sys cur j))%float in
      if PrimFloat.leb r cumsum then
        let w1 :=
          (w * (if PrimFloat.leb 0 (C sys cur j) then 1.0 else -1.0))%float in
        let w2 := (w1 * (row_sum sys cur / (1.0 - TERMINATION_PROB)))%float in
        (j, w2)
      else select_next sys cur r cumsum w rest
  end.

(** The body of the loop over [step], on the locals of [random_walk]. *)
Definition walk_body (sys : LinearSystem) (st : Solver.walk_state)
    : Solver.walk_state * bool :=
  let sum1 :=
    (Solver.walk_sum st
     + Solver.weight st * f sys (Solver.current_state st))%float in
  let (u, calls1) := rand_double (Solver.calls st) in
  if PrimFloat.ltb u TERMINATION_PROB then
    (Solver.mkWalk sum1 (Solver.current_state st) (Solver.weight st)
       (Solver.step st) calls1, true)
  else if PrimFloat.ltb (row_sum sys (Solver.current_state st)) 1e-12%float
  then
    (Solver.mkWalk sum1 (Solver.current_state st) (Solver.weight st)
       (Solver.step st) calls1, true)
  else
    let (u2, calls2) := rand_double calls1 in
    let r := (u2 * row_sum sys (Solver.current_state st))%float in
    let (next_state, w) :=
      select_next sys (Solver.current_state st) r 0%float (Solver.weight st)
                  (seqZ 0 (n sys)) in
    (Solver.mkWalk sum1 next_state w (Solver.step st) calls2, false).

(** [for (int step = 0; step < MAX_WALK_LENGTH; step++) { ... }]. *)
Fixpoint walk_loop (fuel : nat) (sys : LinearSystem) (st : Solver.walk_state)
    : option Solver.walk_state :=
  match fuel with
  | O => None
  | S fuel' =>
      if Solver.step st <? MAX_WALK_LENGTH then
        let (st', broke) := walk_body sys st in
        if broke then Some st'
        else walk_loop fuel' sys (Solver.next_step st')
      else Some st
  end.

Definition random_walk (sys : LinearSystem) (start_state : Z) (k : N)
    : option (float * N) :=
  match walk_loop (S (Z.to_nat MAX_WALK_LENGTH)) sys
                  (Solver.walk_start start_state k) with
  | Some st => Some (Solver.walk_sum st, Solver.calls st)
  | None => None
  end.

(** [for (walk = 0; walk < num_walks; walk++) sum += random_walk(sys, i)]
    with [count] walks to go. *)
Fixpoint sum_walks (count : nat) (sys : LinearSystem) (i : Z) (sum : float)
    (k : N) : option (float * N) :=
  match count with
  | O => Some (sum, k)
  | S count' =>
      match random_walk sys i k with
      | Some (w, k') => sum_walks count' sys i (sum + w)%float k'
      | None => None
      end
  end.

(** The loop over [i] of [solve_monte_carlo]. *)
Fixpoint solve_rows (sys : LinearSystem) (num_walks : Z) (rows : list Z)
    (k : N) : option (LinearSystem * N) :=
  match rows with
  | [] => Some (sys, k)
  | i :: rest =>
      match sum_walks (Z.to_nat num_walks) sys i 0%float k with
      | Some (sum, k') =>
          solve_rows (set_x_mc sys i (sum / double_of_int num_walks)%float)
                     num_walks rest k'
      | None => None
      end
  end.

Definition solve_monte_carlo (sys : LinearSystem) (num_walks : Z) (k : N)
    : option (LinearSystem * N) :=
  solve_rows sys num_walks (seqZ 0 (n sys)) k.

End Random.

(** The work unit that asks for all components of [sys] with [num_walks]
    walks each. *)
Definition full_range_data (sys : LinearSystem) (num_walks : Z)
    : Solver.MonteCarloData :=
  Solver.mkData (n sys) (A sys) (b sys) (C sys) (f sys) (row_sum sys)
                0 (n sys - 1) num_walks.

End Simple.

(* ===================================================================== *)
(** ** The PI validator: [server/pi_validator.cpp] *)
(* ===================================================================== *)

Module PiValidator.

Definition PI_TOLERANCE : float := 0.001%float.

(** [compare_results] on the doubles behind [data1] and [data2]: the
    return value and [match]. *)
Definition compare_results (pi1 pi2 : float) : Z * bool :=
  let diff := PrimFloat.abs (pi1 - pi2)%float in
  let avg := ((pi1 + pi2) / 2)%float in
  let relative_error := (diff / avg)%float in
  (0, PrimFloat.leb relative_error PI_TOLERANCE).

End PiValidator.

(* ===================================================================== *)
(** ** The PI application: [unnamed/part_003] *)
(* ===================================================================== *)

Module PiApp.

(** [struct CHECKPOINT_DATA]. *)
Record CHECKPOINT_DATA := mkCheckpoint {
  iterations_completed : Z;
  points_in_circle : Z;
  random_seed : Z
}.

(** What one run of [compute_pi] meets outside the program: the return
    values of [boinc_resolve_filename] and whether [boinc_fopen] gives a
    file, for the input, for the checkpoint (read once, written in the
    iterations [i] that ask for it) and for the output; what [fscanf]
    converts from the input and from the checkpoint ([None] when it does
    not convert all items); the seed taken from [/dev/urandom] or the
    clock; and the answer of [boinc_time_to_checkpoint()] in iteration
    [i]. *)
Record environment := mkEnv {
  input_resolve : Z;
  input_file : option (option Z);
  checkpoint_resolve : Z;
  checkpoint_file : option (option CHECKPOINT_DATA);
  fresh_seed : Z;
  time_to_checkpoint : Z → bool;
  write_resolve : Z → Z;
  write_open : Z → bool;
  output_resolve : Z;
  output_open : bool
}.

(** [read_input_file]: the return value and [iterations]. *)
Definition read_input_file (resolve : Z) (file : option (option Z))
    (iterations : Z) : Z * Z :=
  if negb (resolve =? 0) then (resolve, iterations)
  else match file with
       | None => (-1, iterations)
       | Some None => (-1, iterations)
       | Some (Some n) => (0, n)
       end.

(** [write_output_file]: the return value and, when the file is written,
    the estimate and the iteration count its lines are printed from. *)
Definition write_output_file (resolve : Z) (opened : bool)
    (pi_estimate : float) (iterations : Z) : Z * option (float * Z) :=
  if negb (resolve =? 0) then (resolve, None)
  else if negb opened then (-1, None)
  else (0, Some (pi_estimate, iterations)).

(** [write_checkpoint]: the return value and the checkpoints written so
    far, the newest (what the file holds) first. *)
Definition write_checkpoint (resolve : Z) (opened : bool)
    (data : CHECKPOINT_DATA) (written : list CHECKPOINT_DATA)
    : Z * list CHECKPOINT_DATA :=
  if negb (resolve =? 0) then (resolve, written)
  else if negb opened then (-1, written)
  else (0, data :: written).

(** [read_checkpoint]: the return value and [data]. *)
Definition read_checkpoint (resolve : Z)
    (file : option (option CHECKPOINT_DATA)) (data : CHECKPOINT_DATA)
    : Z * CHECKPOINT_DATA :=
  if negb (resolve =? 0) then (-1, data)
  else match file with
       | None => (-1, data)
       | Some None => (-1, data)
       | Some (Some saved) => (0, saved)
       end.

(** The global [checkpoint_data], the number of calls of [rand()] since
    [srand], and the checkpoints written. *)
Record run_state := mkRun {
  checkpoint_data : CHECKPOINT_DATA;
  calls : N;
  checkpoints : list CHECKPOINT_DATA
}.

(** What [compute_pi] returns and leaves behind. *)
Record run := mkResult {
  retval : Z;
  state : run_state;
  output : option (float * Z)
}.

Section Run.

Variable RAND_MAX : Z.
(** [rand seed k]: the value of call number [k] of [rand()] after
    [srand(seed)]. *)
Variable rand : Z → N → Z.
Variable env : environment.

(** Lines 176-204: [checkpoint_data] when the loop starts. *)
Definition start_data : CHECKPOINT_DATA :=
  let (retval, data) :=
    read_checkpoint (checkpoint_resolve env) (checkpoint_file env)
                    (mkCheckpoint 0 0 0) in
  if negb (retval =? 0) then mkCheckpoint 0 0 (fresh_seed env) else data.

(** The body of the main loop for [i]; a return value other than 0 is
    the [return retval] of line 239. *)
Definition iteration (seed : Z) (st : run_state) (i : Z) : Z * run_state :=
  let x :=
    (double_of_int (rand seed (calls st)) / double_of_int RAND_MAX)%float in
  let y :=
    (double_of_int (rand seed (N.succ (calls st)))
     / double_of_int RAND_MAX)%float in
  let calls2 := N.succ (N.succ (calls st)) in
  let points :=
    if PrimFloat.leb (x * x + y * y)%float 1%float
    then points_in_circle (checkpoint_data st) + 1
    else points_in_circle (checkpoint_data st) in
  if time_to_checkpoint env i then
    let data :=
      mkCheckpoint (i + 1) points (rand seed calls2 mod 2 ^ 32) in
    let (retval, written) :=
      write_checkpoint (write_resolve env i) (write_open env i) data
                       (checkpoints st) in
    (retval, mkRun data (N.succ calls2) written)
  else
    (0, mkRun (mkCheckpoint (i + 1) points
                 (random_seed (checkpoint_data st)))
              calls2 (checkpoints st)).

(** [for (long long i = ...; i < total_iterations; i++)] over the
    remaining values of [i]. *)
Fixpoint iterations (seed : Z) (st : run_state) (todo : list Z)
    : Z * run_state :=
  match todo with
  | [] => (0, st)
  | i :: rest =>
      let (retval, st') := iteration seed st i in
      if negb (retval =? 0) then (retval, st')
      else iterations seed st' rest
  end.

Definition compute_pi : run :=
  let (retval, total_iterations) :=
    read_input_file (input_resolve env) (input_file env) 0 in
  if negb (retval =? 0)
  then mkResult retval (mkRun (mkCheckpoint 0 0 0) 0 []) None
  else
    let data := start_data in
    let (retval, st) :=
      iterations (random_seed data) (mkRun data 0 [])
        (seqZ (iterations_completed data)
              (total_iterations - iterations_completed data)) in
    if negb (retval =? 0) then mkResult retval st None
    else
      let pi_estimate :=
        (4.0 * double_of_int (points_in_circle (checkpoint_data st))
         / double_of_int total_iterations)%float in
      let (retval, written) :=
        write_output_file (output_resolve env) (output_open env)
                          pi_estimate total_iterations in
      mkResult retval st written.

End Run.

(** The checkpoints of a run that started from [start] and was asked for
    [total] iterations: written in an iteration after [start] that asked
    for one, with no more hits than iterations since [start], and a seed
    that is an [unsigned int]. *)
Definition checkpoint_ok (env : environment) (start : CHECKPOINT_DATA)
    (total : Z) (saved : CHECKPOINT_DATA) : Prop :=
  iterations_completed start < iterations_completed saved ≤ total
  ∧ time_to_checkpoint env (iterations_completed saved - 1) = true
  ∧ points_in_circle start ≤ points_in_circle saved
    ≤ points_in_circle start
      + (iterations_completed saved - iterations_completed start)
  ∧ 0 ≤ random_seed saved < 2 ^ 32.

(** The number of iterations [lo <= i < hi] in which
    [boinc_time_to_checkpoint()] says yes. *)
Definition checkpoint_requests (env : environment) (lo hi : Z) : Z :=
  Z.of_nat (length (List.filter (time_to_checkpoint env) (seqZ lo (hi - lo)))).

(** The invariant of the main loop, for a run from [start] towards
    [bound]. *)
Definition run_invariant (env : environment) (start : CHECKPOINT_DATA)
    (bound : Z) (st : run_state) : Prop :=
  iterations_completed start ≤ iterations_completed (checkpoint_data st)
    ≤ bound
  ∧ points_in_circle start ≤ points_in_circle (checkpoint_data st)
    ≤ points_in_circle start
      + (iterations_completed (checkpoint_data st)
         - iterations_completed start)
  ∧ Z.of_N (calls st)
    = 2 * (iterations_completed (checkpoint_data st)
           - iterations_completed start)
      + checkpoint_requests env (iterations_completed start)
          (iterations_completed (checkpoint_data st))
  ∧ Forall (checkpoint_ok env start bound) (checkpoints st).

(** While no write has failed, every request has left a checkpoint. *)
Definition all_written (env : environment) (start : CHECKPOINT_DATA)
    (st : run_state) : Prop :=
  Z.of_nat (length (checkpoints st))
  = checkpoint_requests env (iterations_completed start)
      (iterations_completed (checkpoint_data st)).

End PiApp.

(** Concrete solver inputs used below. *)
Module SolverInputs.
Import Solver.

Definition matrix_of (rows : list (list float)) : matrix :=
  λ i j, nth (Z.to_nat j) (nth (Z.to_nat i) rows []) 0%float.
Definition vector_of (elems : list float) : vector :=
  λ i, nth (Z.to_nat i) elems 0%float.

(** 4x + y = 1, 2x + 5y = 2; both components, three walks each. *)
Definition small_system : MonteCarloData :=
  mkData 2 (matrix_of [[4; 1]; [2; 5]]%float) (vector_of [1; 2]%float)
         (λ _ _, 0%float) (λ _, 0%float) (λ _, 0%float) 0 1 3.

Definition small_form : MonteCarloData :=
  snd (prepare_iteration_form small_system).

(** glibc's [RAND_MAX] and a linear congruential sequence for [rand]. *)
Definition rand_max : Z := 2147483647.
Definition lcg (k : N) : Z :=
  N.iter (N.succ k) (λ x, (x * 1103515245 + 12345) mod 2147483648) 42.

End SolverInputs.

(** Concrete merge inputs used below. *)
Module MergeInputs.
Import Validator.

(** Two estimates of components 0..2 and 2..4 that disagree at index 2. *)
Definition sol_low : PartialSolution := mkPartialSolution 0 2 [1; 2; 3]%float.
Definition sol_high : PartialSolution :=
  mkPartialSolution 2 4 [3.5; 4; 5]%float.
Definition after_low : merge_state := add_solution initial_state sol_low.

(** A chain of three estimates of component 1: each within one percent of
    its predecessor, the third not within one percent of the first. *)
Definition sol_x : PartialSolution := mkPartialSolution 0 1 [1; 1]%float.
Definition sol_y : PartialSolution := mkPartialSolution 1 1 [1.009]%float.
Definition sol_b : PartialSolution := mkPartialSolution 1 2 [1.018; 5]%float.
Definition after_x : merge_state := add_solution initial_state sol_x.
Definition chain_results : list RESULT :=
  [result_with 1 sol_x; result_with 2 sol_y; result_with 3 sol_b].

(** Components 0..2 and 4..6, nothing for component 3. *)
Definition gap_low : PartialSolution := mkPartialSolution 0 2 [1; 2; 3]%float.
Definition gap_high : PartialSolution := mkPartialSolution 4 6 [5; 6; 7]%float.
Definition gap_results : list RESULT :=
  [result_with 1 gap_low; result_with 2 gap_high].
Definition gap_state : merge_state :=
  add_solution (add_solution initial_state gap_low) gap_high.

(** A first result without output files, then a full solution. *)
Definition skipped_first_results : list RESULT :=
  [mkRESULT 7 (Some []); result_with 8 (mkPartialSolution 0 0 [1]%float)].

(** The ranges 0..1, 2..2 and 3..5, submitted out of order. *)
Definition partition_sols : list PartialSolution :=
  [mkPartialSolution 3 5 [4; 5; 6]%float;
   mkPartialSolution 0 1 [1; 2]%float;
   mkPartialSolution 2 2 [3]%float].
Definition partition_results : list RESULT :=
  [result_with 11 (mkPartialSolution 3 5 [4; 5; 6]%float);
   result_with 12 (mkPartialSolution 0 1 [1; 2]%float);
   result_with 13 (mkPartialSolution 2 2 [3]%float)].

(** The same ranges and ids with every value ten times as large. *)
Definition tenfold_sols : list PartialSolution :=
  [mkPartialSolution 3 5 [40; 50; 60]%float;
   mkPartialSolution 0 1 [10; 20]%float;
   mkPartialSolution 2 2 [30]%float].
Definition tenfold_results : list RESULT :=
  [result_with 11 (mkPartialSolution 3 5 [40; 50; 60]%float);
   result_with 12 (mkPartialSolution 0 1 [10; 20]%float);
   result_with 13 (mkPartialSolution 2 2 [30]%float)].

(** Three ranges of 3, 4 and 5 components. *)
Definition three_ranges : list PartialSolution :=
  [mkPartialSolution 0 2 [1; 2; 3]%float;
   mkPartialSolution 3 6 [4; 5; 6; 7]%float;
   mkPartialSolution 7 11 [8; 9; 10; 11; 12]%float].
Definition three_ranges_results : list RESULT :=
  [result_with 1 (mkPartialSolution 0 2 [1; 2; 3]%float);
   result_with 2 (mkPartialSolution 3 6 [4; 5; 6; 7]%float);
   result_with 3 (mkPartialSolution 7 11 [8; 9; 10; 11; 12]%float)].
Definition three_ranges_state : merge_state :=
  fold_left add_solution three_ranges initial_state.

End MergeInputs.

(** Further concrete inputs. *)
Module ExtraInputs.
Import Validator MergeInputs.

(** A second estimate of components 0..1, within one percent of [sol_x]. *)
Definition sol_x_close : PartialSolution :=
  mkPartialSolution 0 1 [1.005; 0.999]%float.

(** Results [check_set] passes over: no file list, no file, an unreadable
    file, a file without a range line, a file with too few values. *)
Definition unusable_results : list RESULT :=
  [mkRESULT 1 None; mkRESULT 2 (Some []); mkRESULT 3 (Some [Unreadable]);
   mkRESULT 4 (Some [Readable None [1]%float]);
   mkRESULT 5 (Some [Readable (Some (0, 2)) [1; 2]%float])].

(** Components 2..3 with a NaN for component 2, which [sol_low] has as 3. *)
Definition nan_solution : PartialSolution :=
  mkPartialSolution 2 3 [nan; 7]%float.
Definition nan_result : RESULT := result_with 9 nan_solution.

(** A file that declares the range 5..3. *)
Definition reversed_range_result : RESULT :=
  mkRESULT 6 (Some [Readable (Some (5, 3)) []]).


(** [small_form] with no walks asked for. *)
Definition no_walks_form : Solver.MonteCarloData :=
  Solver.mkData 2 (Solver.A SolverInputs.small_form)
    (Solver.b SolverInputs.small_form) (Solver.C SolverInputs.small_form)
    (Solver.f SolverInputs.small_form) (Solver.row_sum SolverInputs.small_form)
    0 1 0.

End ExtraInputs.

(** Concrete inputs of the PI application. *)
Module PiInputs.
Import PiApp.

Definition seeded_lcg (seed : Z) (k : N) : Z :=
  N.iter (N.succ k) (λ x, (x * 1103515245 + 12345) mod 2147483648) seed.

(** Five iterations asked for, no checkpoint to resume from, a checkpoint
    due in iteration 2, every file usable. *)
Definition five_iterations : environment :=
  mkEnv 0 (Some (Some 5)) 0 None 42 (λ i, i =? 2) (λ _, 0) (λ _, true) 0 true.

(** The same, with the checkpoint file not writable. *)
Definition checkpoint_unwritable : environment :=
  mkEnv 0 (Some (Some 5)) 0 None 42 (λ i, i =? 2) (λ _, 0) (λ _, false) 0 true.

End PiInputs.

(* ===================================================================== *)
(** ** Properties of the merge *)
(* ===================================================================== *)

Module ValidatorProofs.
Import Validator MergeInputs.

Lemma elem_of_index_range lo hi idx :
  idx ∈ index_range lo hi ↔ lo ≤ idx ≤ hi.
Proof. unfold index_range. rewrite elem_of_seqZ. lia. Qed.

Lemma lookup_mark_covered idxs cov k idx :
  mark_covered cov k idxs !! idx
  = if bool_decide (idx ∈ idxs) then Some k else cov !! idx.
Proof.
  revert cov. induction idxs as [|j rest IH]; intros cov.
  - cbn [mark_covered]. case_bool_decide as Hin; [|done].
    by apply elem_of_nil in Hin.
  - cbn [mark_covered]. rewrite IH.
    do 2 case_bool_decide; try done.
    + exfalso. rewrite elem_of_cons in *. tauto.
    + destruct (decide (idx = j)) as [->|Hne].
      * by rewrite lookup_insert_eq.
      * exfalso. rewrite elem_of_cons in *. tauto.
    + rewrite lookup_insert_ne; [done|]. rewrite elem_of_cons in *. intuition.
Qed.

Lemma lookup_mark_covered_in idxs cov k idx :
  idx ∈ idxs → mark_covered cov k idxs !! idx = Some k.
Proof. intros. by rewrite lookup_mark_covered, bool_decide_eq_true_2. Qed.

Lemma lookup_mark_covered_out idxs cov k idx :
  idx ∉ idxs → mark_covered cov k idxs !! idx = cov !! idx.
Proof. intros. by rewrite lookup_mark_covered, bool_decide_eq_false_2. Qed.

(** The overlap loop says [valid] exactly when no claimed index of the
    list holds an inconsistent value. *)
Lemma overlap_valid_true st sol idxs :
  overlap_valid st sol idxs = true ↔
  ∀ idx k, idx ∈ idxs → component_coverage st !! idx = Some k →
    inconsistent (value_at sol idx)
                 (value_at (nth k (solutions st) no_solution) idx) = false.
Proof.
  induction idxs as [|j rest IH]; simpl.
  - split; [|done]. intros _ idx k Hin. by apply elem_of_nil in Hin.
  - destruct (component_coverage st !! j) as [p|] eqn:Hj.
    + destruct (inconsistent _ _) eqn:Hbad.
      * split; [done|]. intros H.
        specialize (H j p (list_elem_of_here _ _) Hj). congruence.
      * rewrite IH. split.
        -- intros H idx k Hin Hk. apply elem_of_cons in Hin as [->|Hin].
           ++ congruence.
           ++ by apply H.
        -- intros H idx k Hin. apply H. by right.
    + rewrite IH. split.
      * intros H idx k Hin Hk. apply elem_of_cons in Hin as [->|Hin].
        -- congruence.
        -- by apply H.
      * intros H idx k Hin. apply H. by right.
Qed.

Lemma overlap_valid_false st sol idxs idx k :
  idx ∈ idxs → component_coverage st !! idx = Some k →
  inconsistent (value_at sol idx)
               (value_at (nth k (solutions st) no_solution) idx) = true →
  overlap_valid st sol idxs = false.
Proof.
  intros Hin Hk Hbad. apply not_true_is_false. intros Hv.
  rewrite overlap_valid_true in Hv. specialize (Hv idx k Hin Hk). congruence.
Qed.

Lemma overlap_valid_unclaimed st sol idxs :
  (∀ idx, idx ∈ idxs → component_coverage st !! idx = None) →
  overlap_valid st sol idxs = true.
Proof.
  intros H. apply overlap_valid_true. intros idx k Hin Hk.
  rewrite (H idx Hin) in Hk. discriminate.
Qed.

Lemma process_results_app st l1 l2 :
  process_results st (l1 ++ l2)
  = match process_results st l1 with
    | Some st' => process_results st' l2
    | None => None
    end.
Proof.
  revert st. induction l1 as [|r l1 IH]; intros st; simpl; [done|].
  destruct (process_result st r); [apply IH | done].
Qed.

(** What [parse_result] hands over has one value per index of its range. *)
Lemma parse_result_ok file sol :
  parse_result file = ParseOk sol →
  Z.of_nat (length (values sol)) = end_idx sol - start_idx sol + 1.
Proof.
  destruct file as [|[[s e]|] numbers]; simpl; try discriminate.
  destruct (Z.ltb_spec (e - s + 1) 0); [discriminate|].
  destruct (Z.ltb_spec (Z.of_nat (length numbers)) (e - s + 1)); [discriminate|].
  intros [= <-]. simpl. rewrite length_take. lia.
Qed.

Lemma initial_state_wf : coverage_wf initial_state.
Proof. intros idx k H. simpl in H. by rewrite lookup_empty in H. Qed.

Lemma add_solution_wf st sol :
  coverage_wf st →
  Z.of_nat (length (values sol)) = end_idx sol - start_idx sol + 1 →
  coverage_wf (add_solution st sol).
Proof.
  intros Hwf Hlen. unfold add_solution.
  destruct (overlap_valid _ _ _); [|done].
  intros idx k. simpl. rewrite lookup_mark_covered.
  destruct (decide (idx ∈ index_range (start_idx sol) (end_idx sol))) as [Hin|Hout].
  - rewrite bool_decide_eq_true_2 by done. intros [= <-].
    exists sol. split; [|split; [by apply elem_of_index_range | done]].
    rewrite lookup_app_r by lia. by rewrite Nat.sub_diag.
  - rewrite bool_decide_eq_false_2 by done. intros Hk.
    destruct (Hwf idx k Hk) as (prev & Hprev & Hrange & Hl).
    exists prev. split; [|done]. by apply lookup_app_l_Some.
Qed.

Lemma process_result_wf st r st' :
  coverage_wf st → process_result st r = Some st' → coverage_wf st'.
Proof.
  unfold process_result. intros Hwf.
  destruct (output_files r) as [[|file fs]|]; try (intros [= <-]; done).
  destruct (parse_result file) eqn:Hp; try (intros [= <-]; done).
  intros [= <-]. apply add_solution_wf; [done|]. by eapply parse_result_ok.
Qed.

Lemma process_results_wf results st st' :
  coverage_wf st → process_results st results = Some st' → coverage_wf st'.
Proof.
  revert st. induction results as [|r rest IH]; intros st Hwf; simpl.
  - by intros [= <-].
  - destruct (process_result st r) as [st1|] eqn:H1; [|done].
    apply IH. by eapply process_result_wf.
Qed.

Lemma reachable_wf results st :
  process_results initial_state results = Some st → coverage_wf st.
Proof. apply process_results_wf, initial_state_wf. Qed.

Lemma first_solution_needs_result results st :
  process_results initial_state results = Some st →
  solutions st ≠ [] → ∃ r0 rest, results = r0 :: rest.
Proof.
  destruct results as [|r0 rest]; [|eauto]. simpl. by intros [= <-].
Qed.

Lemma conclude_same_head r0 l1 l2 c0 cr0 st :
  conclude (r0 :: l1) c0 cr0 st = conclude (r0 :: l2) c0 cr0 st.
Proof. reflexivity. Qed.

(** A solution that disagrees with a claimed value changes nothing. *)
Lemma add_solution_conflict st sol idx k prev :
  start_idx sol ≤ idx ≤ end_idx sol →
  component_coverage st !! idx = Some k →
  solutions st !! k = Some prev →
  inconsistent (value_at sol idx) (value_at prev idx) = true →
  add_solution st sol = st.
Proof.
  intros Hr Hk Hprev Hbad. unfold add_solution.
  rewrite (overlap_valid_false st sol _ idx k); [done | | done |].
  - by apply elem_of_index_range.
  - by rewrite (nth_lookup_Some _ _ _ _ Hprev).
Qed.

(** A solution that agrees with every claimed value of its range is
    appended and takes over its whole range. *)
Lemma add_solution_consistent st sol :
  coverage_wf st →
  (∀ idx k prev, start_idx sol ≤ idx ≤ end_idx sol →
     component_coverage st !! idx = Some k →
     solutions st !! k = Some prev →
     inconsistent (value_at sol idx) (value_at prev idx) = false) →
  add_solution st sol
  = mkState (solutions st ++ [sol])
            (mark_covered (component_coverage st) (length (solutions st))
               (index_range (start_idx sol) (end_idx sol))).
Proof.
  intros Hwf Hok. unfold add_solution.
  rewrite (proj2 (overlap_valid_true st sol _)); [done|].
  intros idx k Hin Hk. apply elem_of_index_range in Hin.
  destruct (Hwf idx k Hk) as (prev & Hprev & _).
  rewrite (nth_lookup_Some _ _ _ _ Hprev). by eapply Hok.
Qed.

Lemma max_end_idx_fold sols m :
  let m' := fold_left (fun max_idx sol =>
               if max_idx <? end_idx sol then end_idx sol else max_idx)
            sols m in
  m ≤ m' ∧ (∀ s, s ∈ sols → end_idx s ≤ m')
  ∧ (m' = m ∨ ∃ s, s ∈ sols ∧ end_idx s = m').
Proof.
  revert m. induction sols as [|a sols IH]; intros m; simpl.
  - split; [lia|]. split; [|by left]. intros s Hs. by apply elem_of_nil in Hs.
  - specialize (IH (if m <? end_idx a then end_idx a else m)).
    simpl in IH. destruct IH as (Hle & Hall & Hor).
    destruct (Z.ltb_spec m (end_idx a)).
    + split; [lia|]. split.
      * intros s Hs. apply elem_of_cons in Hs as [->|Hs]; [lia | by apply Hall].
      * right. destruct Hor as [->|(s & Hs & Hm)].
        -- exists a. split; [by left | done].
        -- exists s. split; [by right | done].
    + split; [lia|]. split.
      * intros s Hs. apply elem_of_cons in Hs as [->|Hs]; [lia | by apply Hall].
      * destruct Hor as [->|(s & Hs & Hm)]; [by left|].
        right. exists s. split; [by right | done].
Qed.

Lemma complete_false st idx :
  0 ≤ idx ≤ max_end_idx (solutions st) →
  component_coverage st !! idx = None →
  complete st = false.
Proof.
  intros Hr Hnone. apply not_true_is_false. unfold complete.
  rewrite forallb_forall. intros Hall.
  specialize (Hall idx). unfold covered in Hall. rewrite Hnone in Hall.
  assert (false = true) by
    (apply Hall, list_elem_of_In, elem_of_index_range; lia).
  discriminate.
Qed.

Lemma conclude_incomplete results c0 cr0 st :
  complete st = false →
  conclude results c0 cr0 st = mkResult (-1) c0 cr0 true.
Proof. intros H. unfold conclude. rewrite H. by destruct (solutions st). Qed.

Lemma check_set_success results c0 cr0 out :
  check_set results c0 cr0 = Some out → retval out = 0 →
  ∃ st r0 rest,
    process_results initial_state results = Some st
    ∧ results = r0 :: rest
    ∧ solutions st ≠ []
    ∧ complete st = true
    ∧ out = mkResult 0 (id r0) (credit_of (solutions st)) false.
Proof.
  unfold check_set.
  destruct (process_results initial_state results) as [st|] eqn:Hst; [|done].
  intros [= <-]. unfold conclude.
  destruct (solutions st) as [|s0 sols] eqn:Hs; [done|].
  destruct (complete st) eqn:Hc; [|done]. intros _.
  destruct (first_solution_needs_result results st Hst) as (r0 & rest & ->).
  { by rewrite Hs. }
  exists st, r0, rest. by rewrite Hs.
Qed.

(** *** Inconsistent overlap *)

(** C1, as amended.  An arriving solution that differs by more than the
    tolerance, at some index of its range, from the value claimed there at
    that moment (the value of the accepted solution the coverage map names
    for the index) is discarded whole: the accepted list and the coverage
    map stay as they were, so no index of its range becomes its own, the
    earlier claims remain, and the merge ends as if the result had never
    been submitted. *)
Theorem conflicting_solution_discarded
    (pre post : list RESULT) (r : RESULT) (st : merge_state)
    (file : OUTPUT_FILE_INFO) (files : list OUTPUT_FILE_INFO)
    (sol prev : PartialSolution) (idx : Z) (k : nat)
    (c0 : Z) (cr0 : float) :
  process_results initial_state pre = Some st →
  output_files r = Some (file :: files) →
  parse_result file = ParseOk sol →
  start_idx sol ≤ idx ≤ end_idx sol →
  component_coverage st !! idx = Some k →
  solutions st !! k = Some prev →
  inconsistent (value_at sol idx) (value_at prev idx) = true →
  process_results initial_state (pre ++ [r]) = Some st
  ∧ check_set (pre ++ r :: post) c0 cr0 = check_set (pre ++ post) c0 cr0.
Proof.
  intros Hpre Hfiles Hparse Hr Hk Hprev Hbad.
  assert (Hstep : process_result st r = Some st).
  { unfold process_result. rewrite Hfiles, Hparse.
    by rewrite (add_solution_conflict st sol idx k prev). }
  split.
  - rewrite process_results_app, Hpre. simpl. by rewrite Hstep.
  - destruct pre as [|r0 pre'].
    { simpl in Hpre. injection Hpre as <-. simpl in Hk.
      by rewrite lookup_empty in Hk. }
    unfold check_set. rewrite !process_results_app, Hpre.
    cbn [process_results]. rewrite Hstep.
    destruct (process_results st post) as [m|]; [|done].
    apply f_equal. exact (conclude_same_head r0 _ _ c0 cr0 m).
Qed.

Lemma conflicting_solution_discarded_witness :
  process_results initial_state ([result_with 1 sol_low] ++ [result_with 2 sol_high])
  = Some after_low
  ∧ check_set ([result_with 1 sol_low] ++ result_with 2 sol_high :: []) 0 0%float
    = check_set ([result_with 1 sol_low] ++ []) 0 0%float.
Proof.
  apply (conflicting_solution_discarded
           [result_with 1 sol_low] [] (result_with 2 sol_high) after_low
           (Readable (Some (2, 4)) [3.5; 4; 5]%float) [] sol_high sol_low
           2 0%nat 0 0%float).
  - reflexivity.
  - reflexivity.
  - reflexivity.
  - simpl. lia.
  - vm_compute. reflexivity.
  - reflexivity.
  - vm_compute. reflexivity.
Defined.

(** C1 as stated fails: [sol_b] arrives last and differs from the
    earlier, accepted [sol_x] by more than one percent at their common
    index 1, yet it is accepted with its whole range, because index 1 had
    meanwhile been taken over by [sol_y], with which it agrees. *)
Lemma later_conflicting_solution_accepted :
  inconsistent (value_at sol_b 1) (value_at sol_x 1) = true
  ∧ inconsistent (value_at sol_x 1) (value_at sol_b 1) = true
  ∧ (option_map solutions (process_results initial_state [result_with 1 sol_x])
     = Some [sol_x])
  ∧ (option_map solutions (process_results initial_state chain_results)
     = Some [sol_x; sol_y; sol_b])
  ∧ (option_map (λ st, component_coverage st !! 1)
       (process_results initial_state chain_results) = Some (Some 2%nat))
  ∧ (option_map (λ st, component_coverage st !! 2)
       (process_results initial_state chain_results) = Some (Some 2%nat)).
Proof. vm_compute. repeat split; reflexivity. Qed.

(** *** Overwriting of claims *)

(** C10.  A parsed solution that is within tolerance of every value
    claimed on its range is appended to the accepted list, and every index
    of its range, claimed before or not, is assigned to it; the other
    indices keep their claim.  From then on the value the merge holds at
    such an index, and the one a later arrival is compared against there,
    is the new solution's. *)
Theorem consistent_solution_takes_over_range
    (pre : list RESULT) (r : RESULT) (st : merge_state)
    (file : OUTPUT_FILE_INFO) (files : list OUTPUT_FILE_INFO)
    (sol : PartialSolution) :
  process_results initial_state pre = Some st →
  output_files r = Some (file :: files) →
  parse_result file = ParseOk sol →
  (∀ idx k prev, start_idx sol ≤ idx ≤ end_idx sol →
     component_coverage st !! idx = Some k →
     solutions st !! k = Some prev →
     inconsistent (value_at sol idx) (value_at prev idx) = false) →
  ∃ st', process_results initial_state (pre ++ [r]) = Some st'
    ∧ solutions st' = solutions st ++ [sol]
    ∧ (∀ idx, start_idx sol ≤ idx ≤ end_idx sol →
         component_coverage st' !! idx = Some (length (solutions st))
         ∧ merged_value st' idx = Some (value_at sol idx)
         ∧ ∀ later, overlap_valid st' later [idx]
                    = negb (inconsistent (value_at later idx)
                                         (value_at sol idx)))
    ∧ (∀ idx, ¬ (start_idx sol ≤ idx ≤ end_idx sol) →
         component_coverage st' !! idx = component_coverage st !! idx).
Proof.
  intros Hpre Hfiles Hparse Hok.
  pose proof (reachable_wf _ _ Hpre) as Hwf.
  pose proof (parse_result_ok _ _ Hparse) as Hlen.
  eexists. split.
  { rewrite process_results_app, Hpre. simpl. unfold process_result.
    rewrite Hfiles, Hparse. by rewrite add_solution_consistent. }
  simpl. split; [done|]. split.
  - intros idx Hr.
    assert (Hcov : mark_covered (component_coverage st) (length (solutions st))
                     (index_range (start_idx sol) (end_idx sol)) !! idx
                   = Some (length (solutions st))).
    { by apply lookup_mark_covered_in, elem_of_index_range. }
    assert (Hnth : nth (length (solutions st)) (solutions st ++ [sol])
                     no_solution = sol).
    { rewrite app_nth2 by lia. by rewrite Nat.sub_diag. }
    split; [done|]. split.
    + unfold merged_value. simpl. rewrite Hcov.
      rewrite lookup_app_r by lia. rewrite Nat.sub_diag. simpl.
      unfold value_at.
      destruct (values sol !! Z.to_nat (idx - start_idx sol)) as [v|] eqn:Hv.
      * by rewrite (nth_lookup_Some _ _ _ _ Hv).
      * apply lookup_ge_None in Hv. lia.
    + intros later. simpl. rewrite Hcov, Hnth.
      by destruct (inconsistent _ _).
  - intros idx Hout. apply lookup_mark_covered_out.
    by rewrite elem_of_index_range.
Qed.

Lemma consistent_solution_takes_over_range_witness :
  ∃ st', process_results initial_state ([result_with 1 sol_x] ++ [result_with 2 sol_y])
         = Some st'
    ∧ solutions st' = solutions after_x ++ [sol_y]
    ∧ (∀ idx, start_idx sol_y ≤ idx ≤ end_idx sol_y →
         component_coverage st' !! idx = Some (length (solutions after_x))
         ∧ merged_value st' idx = Some (value_at sol_y idx)
         ∧ ∀ later, overlap_valid st' later [idx]
                    = negb (inconsistent (value_at later idx)
                                         (value_at sol_y idx)))
    ∧ (∀ idx, ¬ (start_idx sol_y ≤ idx ≤ end_idx sol_y) →
         component_coverage st' !! idx = component_coverage after_x !! idx).
Proof.
  apply (consistent_solution_takes_over_range
           [result_with 1 sol_x] (result_with 2 sol_y) after_x
           (Readable (Some (1, 1)) [1.009]%float) [] sol_y).
  - reflexivity.
  - reflexivity.
  - reflexivity.
  - intros idx k prev Hr Hk Hprev. simpl in Hr.
    assert (idx = 1) as -> by lia.
    vm_compute in Hk. injection Hk as <-.
    vm_compute in Hprev. injection Hprev as <-.
    vm_compute. reflexivity.
Defined.

(** *** Incomplete coverage *)

(** C3.  [max_idx] is the largest [end_idx] of the accepted solutions
    (and 0 when none is positive).  Whenever some index of [0, max_idx] is
    unclaimed after the loop, [check_set] returns -1 with [retry] set and
    leaves [canonicalid] and [credit] alone.  In particular this is the
    outcome whenever the accepted solutions cover [0,2] and [4,6] (in
    either order of arrival), and [max_idx] is then 6. *)
Theorem incomplete_coverage_retry
    (results : list RESULT) (c0 : Z) (cr0 : float) (st : merge_state) :
  process_results initial_state results = Some st →
  ((∀ s, s ∈ solutions st → end_idx s ≤ max_end_idx (solutions st))
   ∧ (max_end_idx (solutions st) = 0
      ∨ ∃ s, s ∈ solutions st ∧ end_idx s = max_end_idx (solutions st)))
  ∧ ((∃ idx, 0 ≤ idx ≤ max_end_idx (solutions st)
             ∧ component_coverage st !! idx = None) →
     check_set results c0 cr0 = Some (mkResult (-1) c0 cr0 true))
  ∧ (map range_of (solutions st) = [(0, 2); (4, 6)]
     ∨ map range_of (solutions st) = [(4, 6); (0, 2)] →
     max_end_idx (solutions st) = 6
     ∧ check_set results c0 cr0 = Some (mkResult (-1) c0 cr0 true)).
Proof.
  intros Hst.
  assert (Hgap : (∃ idx, 0 ≤ idx ≤ max_end_idx (solutions st)
                         ∧ component_coverage st !! idx = None) →
                 check_set results c0 cr0 = Some (mkResult (-1) c0 cr0 true)).
  { intros (idx & Hr & Hnone). unfold check_set. rewrite Hst.
    by rewrite (conclude_incomplete _ _ _ _ (complete_false st idx Hr Hnone)). }
  split; [|split; [exact Hgap|]].
  - destruct (max_end_idx_fold (solutions st) 0) as (_ & Hall & Hor).
    split; [exact Hall | exact Hor].
  - intros Hranges.
    destruct (solutions st) as [|s1 [|s2 [|s3 rest]]] eqn:Hs;
      try (destruct Hranges; discriminate).
    assert (Hmax : max_end_idx [s1; s2] = 6).
    { unfold max_end_idx. simpl.
      destruct Hranges as [Hr|Hr]; injection Hr as Hs1 He1 Hs2 He2;
        rewrite He1, He2; reflexivity. }
    split; [exact Hmax|]. apply Hgap. exists 3. rewrite Hmax.
    split; [lia|].
    destruct (component_coverage st !! 3) as [k|] eqn:Hk; [|done].
    destruct (reachable_wf _ _ Hst 3 k Hk) as (sol & Hsol & Hr & _).
    rewrite Hs in Hsol.
    destruct Hranges as [Hrg|Hrg]; injection Hrg as Hs1 He1 Hs2 He2;
      destruct k as [|[|k]]; simpl in Hsol; try discriminate;
      injection Hsol as <-; lia.
Qed.

Lemma incomplete_coverage_retry_witness :
  max_end_idx (solutions gap_state) = 6
  ∧ check_set gap_results 0 0%float = Some (mkResult (-1) 0 0%float true).
Proof.
  destruct (incomplete_coverage_retry gap_results 0 0%float gap_state eq_refl)
    as (_ & _ & H).
  apply H. left. reflexivity.
Defined.

(** *** The canonical result *)

Lemma first_result_accepted_iff r0 :
  accepts initial_state r0 = true ↔
  ∃ file files sol,
    output_files r0 = Some (file :: files) ∧ parse_result file = ParseOk sol.
Proof.
  unfold accepts, process_result.
  destruct (output_files r0) as [[|file files]|]; simpl.
  - split; [done | by intros (? & ? & ? & ? & _)].
  - destruct (parse_result file) as [sol| |] eqn:Hp.
    + unfold add_solution.
      rewrite overlap_valid_unclaimed by (intros; apply lookup_empty).
      simpl. split; [eauto | done].
    + split; [done|]. intros (f & fs & sol & [= <- <-] & H). congruence.
    + split; [done|]. intros (f & fs & sol & [= <- <-] & H). congruence.
  - split; [done | by intros (? & ? & ? & ? & _)].
Qed.

(** C4, as amended.  On every successful merge the canonical identity is
    the [id] of [results[0]], the first result of the input, whatever
    became of it.  That result is a contributor exactly when its first
    output file parses (nothing is claimed yet when it is checked, so a
    parsed first result is always accepted), and it is then the first
    contributor. *)
Theorem canonical_is_first_result
    (results : list RESULT) (c0 : Z) (cr0 : float) (out : check_set_result) :
  check_set results c0 cr0 = Some out →
  retval out = 0 →
  ∃ r0 rest,
    results = r0 :: rest
    ∧ canonicalid out = id r0
    ∧ (accepts initial_state r0 = true ↔
       ∃ file files sol,
         output_files r0 = Some (file :: files)
         ∧ parse_result file = ParseOk sol)
    ∧ (accepts initial_state r0 = true →
       head (contributing initial_state results) = Some r0).
Proof.
  intros Hcs Hret.
  destruct (check_set_success _ _ _ _ Hcs Hret)
    as (st & r0 & rest & Hst & -> & _ & _ & ->).
  exists r0, rest. split; [done|]. split; [done|].
  split; [apply first_result_accepted_iff|].
  intros Hacc. simpl in Hst |- *.
  destruct (process_result initial_state r0) as [st1|] eqn:H1; [|done].
  by rewrite Hacc.
Qed.

Lemma canonical_is_first_result_witness :
  ∃ r0 rest,
    three_ranges_results = r0 :: rest
    ∧ canonicalid (mkResult 0 1 120%float false) = id r0
    ∧ (accepts initial_state r0 = true ↔
       ∃ file files sol,
         output_files r0 = Some (file :: files)
         ∧ parse_result file = ParseOk sol)
    ∧ (accepts initial_state r0 = true →
       head (contributing initial_state three_ranges_results) = Some r0).
Proof.
  apply (canonical_is_first_result three_ranges_results 0 0%float
           (mkResult 0 1 120%float false)).
  - vm_compute. reflexivity.
  - reflexivity.
Defined.

(** C4 as stated fails: the first result has no output file and is
    skipped, the second one alone forms the complete solution, the merge
    succeeds, and the canonical identity is that of the skipped result. *)
Lemma canonical_result_not_a_contributor :
  check_set skipped_first_results 0 0%float
  = Some (mkResult 0 7 10%float false)
  ∧ map id (contributing initial_state skipped_first_results) = [8]
  ∧ accepts initial_state (mkRESULT 7 (Some [])) = false.
Proof. vm_compute. repeat split; reflexivity. Qed.

(** *** Credit *)

Lemma credit_of_fold sols acc :
  fold_left (fun credit sol =>
               let num_components := end_idx sol - start_idx sol + 1 in
               (credit + double_of_int num_components * 10.0)%float)
            sols acc
  = fold_left PrimFloat.add
      (map (λ sol, (double_of_int (component_count sol) * 10.0)%float) sols)
      acc.
Proof.
  revert acc. induction sols as [|s sols IH]; intros acc; simpl; [done|].
  by rewrite IH.
Qed.

(** C5.  On every successful merge the credit is the sum, over the
    accepted solutions in the order of their acceptance, of the component
    count [end_idx - start_idx + 1] times 10.0; nothing else enters it (a
    partial solution carries no walk count).  When three solutions of 3, 4
    and 5 components were accepted, in whatever order, the credit is 12
    times 10.0. *)
Theorem credit_is_component_count_times_reward
    (results : list RESULT) (c0 : Z) (cr0 : float)
    (st : merge_state) (out : check_set_result) :
  process_results initial_state results = Some st →
  check_set results c0 cr0 = Some out →
  retval out = 0 →
  credit out
  = fold_left PrimFloat.add
      (map (λ sol, (double_of_int (component_count sol) * 10.0)%float)
           (solutions st))
      0%float
  ∧ (map component_count (solutions st) ≡ₚ [3; 4; 5] →
     credit out = (double_of_int 12 * 10.0)%float).
Proof.
  intros Hst Hcs Hret.
  destruct (check_set_success _ _ _ _ Hcs Hret)
    as (st' & r0 & rest & Hst' & -> & _ & _ & ->).
  rewrite Hst in Hst'. injection Hst' as <-. simpl.
  unfold credit_of. rewrite credit_of_fold. split; [done|].
  intros Hsizes.
  rewrite <- (map_map component_count
                (λ k, (double_of_int k * 10.0)%float) (solutions st)).
  pose proof (Permutation_length Hsizes) as Hlen.
  assert (Hmem : ∀ x, x ∈ map component_count (solutions st) →
                      x = 3 ∨ x = 4 ∨ x = 5).
  { intros x Hx. rewrite Hsizes, !elem_of_cons, elem_of_nil in Hx. tauto. }
  assert (H345 : 3 ∈ map component_count (solutions st)
                 ∧ 4 ∈ map component_count (solutions st)
                 ∧ 5 ∈ map component_count (solutions st)).
  { rewrite Hsizes, !elem_of_cons. auto 10. }
  destruct (map component_count (solutions st)) as [|a [|b [|c [|d l]]]];
    try discriminate.
  rewrite !elem_of_cons, !elem_of_nil in H345.
  destruct (Hmem a) as [->|[->| ->]]; [rewrite !elem_of_cons; auto|..];
    (destruct (Hmem b) as [->|[->| ->]]; [rewrite !elem_of_cons; auto|..]);
    (destruct (Hmem c) as [->|[->| ->]]; [rewrite !elem_of_cons; auto|..]);
    first [ by vm_compute | exfalso; lia ].
Qed.

Lemma credit_is_component_count_times_reward_witness :
  option_map credit (check_set three_ranges_results 0 0%float)
  = Some (double_of_int 12 * 10.0)%float.
Proof.
  destruct (credit_is_component_count_times_reward three_ranges_results
              0 0%float three_ranges_state (mkResult 0 1 120%float false))
    as [_ H].
  - vm_compute. reflexivity.
  - vm_compute. reflexivity.
  - reflexivity.
  - exact (f_equal Some (H (reflexivity _))).
Defined.

(** *** Merging a partition *)

Lemma in_range_spec sol idx :
  in_range sol idx = true ↔ start_idx sol ≤ idx ≤ end_idx sol.
Proof. unfold in_range. rewrite andb_true_iff, !Z.leb_le. tauto. Qed.

Lemma disjoint_spec s1 s2 idx :
  disjoint s1 s2 = true → in_range s1 idx = true → in_range s2 idx = true →
  False.
Proof.
  unfold disjoint. rewrite orb_true_iff, !Z.ltb_lt, !in_range_spec. lia.
Qed.

Lemma pairwise_disjoint_snoc sols s :
  pairwise_disjoint (sols ++ [s]) = true →
  pairwise_disjoint sols = true ∧ ∀ s', s' ∈ sols → disjoint s' s = true.
Proof.
  induction sols as [|a sols IH]; simpl.
  - intros _. split; [done|]. intros s' Hs'. by apply elem_of_nil in Hs'.
  - rewrite !andb_true_iff, forallb_app, andb_true_iff. simpl.
    rewrite andb_true_r. intros [[Ha Has] Hrest].
    destruct (IH Hrest) as [Hpd Hall]. split; [done|].
    intros s' Hs'. apply elem_of_cons in Hs' as [->|Hs']; [done | by apply Hall].
Qed.

(** A well-formed submission parses to itself. *)
Lemma submitted_parses r sol :
  submitted r = Some sol → well_formed sol = true →
  ∃ file files, output_files r = Some (file :: files)
                ∧ parse_result file = ParseOk sol.
Proof.
  unfold submitted, well_formed.
  destruct (output_files r) as [[|[|[[s e]|] numbers] files]|]; try done.
  intros [= <-]. simpl. rewrite andb_true_iff, Z.leb_le, Z.eqb_eq.
  intros [Hle Hlen]. eexists _, _. split; [done|]. simpl.
  destruct (Z.ltb_spec (e - s + 1) 0); [lia|].
  destruct (Z.ltb_spec (Z.of_nat (length numbers)) (e - s + 1)); [lia|].
  rewrite firstn_all2 by lia. done.
Qed.

Lemma claims_match_step sols st r s :
  claims_match sols st →
  submitted r = Some s → well_formed s = true →
  (∀ s', s' ∈ sols → disjoint s' s = true) →
  ∃ st', process_result st r = Some st' ∧ claims_match (sols ++ [s]) st'.
Proof.
  intros [Hsols Hcov] Hsub Hwf Hdis.
  destruct (submitted_parses r s Hsub Hwf) as (file & files & Hfiles & Hparse).
  unfold process_result. rewrite Hfiles, Hparse. eexists. split; [done|].
  assert (Hfree : ∀ idx, in_range s idx = true →
                         component_coverage st !! idx = None).
  { intros idx Hin.
    destruct (component_coverage st !! idx) as [k|] eqn:Hk; [|done].
    apply Hcov in Hk as (s' & Hs' & Hin').
    destruct (disjoint_spec s' s idx); [|done..].
    apply Hdis. by eapply list_elem_of_lookup_2. }
  unfold add_solution. rewrite overlap_valid_unclaimed.
  2:{ intros idx Hin. apply Hfree, in_range_spec.
      by apply elem_of_index_range. }
  split; simpl; [by rewrite Hsols|].
  intros idx k. rewrite lookup_mark_covered, Hsols.
  case_bool_decide as Hin.
  - apply elem_of_index_range, in_range_spec in Hin. split.
    + intros [= <-]. exists s. split; [|done].
      rewrite lookup_app_r by lia. by rewrite Nat.sub_diag.
    + intros (s' & Hs' & Hin'). f_equal.
      destruct (decide (k < length sols)%nat) as [Hlt|Hge].
      * rewrite lookup_app_l in Hs' by done.
        destruct (disjoint_spec s' s idx); [|done..].
        apply Hdis. by eapply list_elem_of_lookup_2.
      * apply lookup_lt_Some in Hs'. rewrite length_app in Hs'. simpl in Hs'.
        lia.
  - rewrite Hcov. split.
    + intros (s' & Hs' & Hin'). exists s'. split; [|done].
      by apply lookup_app_l_Some.
    + intros (s' & Hs' & Hin'). exists s'. split; [|done].
      destruct (decide (k < length sols)%nat) as [Hlt|Hge].
      * by rewrite lookup_app_l in Hs'.
      * rewrite lookup_app_r in Hs' by lia.
        destruct (k - length sols)%nat as [|?]; [|done].
        injection Hs' as ->. exfalso. apply Hin.
        by apply elem_of_index_range, in_range_spec.
Qed.

Lemma claims_match_loop results sols :
  Forall2 (λ r sol, submitted r = Some sol) results sols →
  forallb well_formed sols = true →
  pairwise_disjoint sols = true →
  ∃ st, process_results initial_state results = Some st
        ∧ claims_match sols st.
Proof.
  revert sols. induction results as [|r pre IH] using rev_ind; intros sols Hsub.
  - apply Forall2_nil_inv_l in Hsub as ->. intros _ _.
    exists initial_state. split; [done|]. split; [done|].
    intros idx k. simpl. rewrite lookup_empty. split; [done|].
    by intros (s & Hs & _).
  - apply Forall2_app_inv_l in Hsub as (spre & slast & Hpre & Hlast & ->).
    apply Forall2_cons_inv_l in Hlast as (s & snil & Hs & Hnil & ->).
    apply Forall2_nil_inv_l in Hnil as ->.
    rewrite forallb_app, andb_true_iff. simpl. rewrite andb_true_r.
    intros [Hwfpre Hwf] Hpd.
    apply pairwise_disjoint_snoc in Hpd as [Hpdpre Hdis].
    destruct (IH spre Hpre Hwfpre Hpdpre) as (st & Hst & Hmatch).
    destruct (claims_match_step spre st r s Hmatch Hs Hwf Hdis)
      as (st' & Hstep & Hmatch').
    exists st'. split; [|done].
    rewrite process_results_app, Hst. simpl. by rewrite Hstep.
Qed.

Lemma covering_solution n sols idx :
  forallb (λ idx, existsb (λ s, in_range s idx) sols) (seqZ 0 n) = true →
  0 ≤ idx < n →
  ∃ k s, sols !! k = Some s ∧ in_range s idx = true.
Proof.
  rewrite forallb_forall. intros Hcover Hidx.
  assert (Hex : existsb (λ s, in_range s idx) sols = true).
  { apply Hcover, list_elem_of_In, elem_of_seqZ. lia. }
  apply existsb_exists in Hex as (s & Hs & Hin).
  apply list_elem_of_In, list_elem_of_lookup in Hs as [k Hk]. eauto.
Qed.

Lemma credit_of_ranges sols sols' :
  map range_of sols' = map range_of sols → credit_of sols' = credit_of sols.
Proof.
  unfold credit_of. generalize 0%float. revert sols.
  induction sols' as [|a' rest' IH]; intros [|a rest] credit Hranges;
    try discriminate; simpl; [done|].
  injection Hranges as Hs He Hrest. rewrite Hs, He. by apply IH.
Qed.

Lemma partition_merge_result
    (n : Z) (results : list RESULT) (sols : list PartialSolution)
    (c0 : Z) (cr0 : float) :
  0 < n →
  Forall2 (λ r sol, submitted r = Some sol) results sols →
  is_partition n sols = true →
  ∃ st r0,
    head results = Some r0
    ∧ process_results initial_state results = Some st
    ∧ check_set results c0 cr0
      = Some (mkResult 0 (id r0) (credit_of sols) false)
    ∧ solutions st = sols
    ∧ max_end_idx (solutions st) = n - 1
    ∧ (∀ sol j v, sol ∈ sols → values sol !! j = Some v →
         merged_value st (start_idx sol + Z.of_nat j) = Some v)
    ∧ (∀ idx, 0 ≤ idx < n → is_Some (merged_value st idx)).
Proof.
  intros Hn Hsub Hpart. unfold is_partition in Hpart.
  apply andb_true_iff in Hpart as [Hpart Hcover].
  apply andb_true_iff in Hpart as [Hall Hpd].
  assert (Hbounds : ∀ s, s ∈ sols →
            well_formed s = true ∧ 0 ≤ start_idx s ∧ end_idx s < n).
  { intros s Hs. rewrite forallb_forall in Hall.
    specialize (Hall s (proj1 (list_elem_of_In _ _) Hs)).
    rewrite !andb_true_iff, Z.leb_le, Z.ltb_lt in Hall. tauto. }
  assert (Hwf : forallb well_formed sols = true).
  { apply forallb_forall. intros s Hs.
    by apply Hbounds, list_elem_of_In. }
  destruct (claims_match_loop results sols Hsub Hwf Hpd)
    as (st & Hst & Hsols & Hcov).
  assert (Hvalue : ∀ sol j v, sol ∈ sols → values sol !! j = Some v →
            merged_value st (start_idx sol + Z.of_nat j) = Some v).
  { intros sol j v Hsol Hv.
    apply list_elem_of_lookup in Hsol as [k Hk].
    destruct (Hbounds sol (list_elem_of_lookup_2 _ _ _ Hk)) as (Hw & _ & _).
    unfold well_formed in Hw. rewrite andb_true_iff, Z.leb_le, Z.eqb_eq in Hw.
    pose proof (lookup_lt_Some _ _ _ Hv) as Hj.
    unfold merged_value.
    rewrite (proj2 (Hcov (start_idx sol + Z.of_nat j) k)).
    2:{ exists sol. split; [done|]. apply in_range_spec. lia. }
    rewrite Hsols, Hk.
    replace (Z.to_nat (start_idx sol + Z.of_nat j - start_idx sol)) with j
      by lia.
    done. }
  assert (Hmax : max_end_idx sols = n - 1).
  { destruct (max_end_idx_fold sols 0) as (H0 & Hle & Hor). simpl in *.
    fold (max_end_idx sols) in H0, Hle, Hor.
    destruct (covering_solution n sols (n - 1) Hcover) as (k & s & Hk & Hin);
      [lia|].
    apply in_range_spec in Hin.
    pose proof (list_elem_of_lookup_2 _ _ _ Hk) as Hs.
    pose proof (Hle s Hs). destruct (Hbounds s Hs) as (_ & _ & Hend).
    destruct Hor as [Hz|(s' & Hs' & Hm)].
    - lia.
    - destruct (Hbounds s' Hs') as (_ & _ & Hend'). lia. }
  assert (Hcomplete : complete st = true).
  { unfold complete. apply forallb_forall. intros idx Hidx.
    apply list_elem_of_In, elem_of_index_range in Hidx.
    rewrite Hsols, Hmax in Hidx.
    destruct (covering_solution n sols idx Hcover) as (k & s & Hk & Hin);
      [lia|].
    unfold covered. rewrite (proj2 (Hcov idx k)); [done | eauto]. }
  assert (Hne : sols ≠ []).
  { destruct (covering_solution n sols 0 Hcover) as (k & s & Hk & _); [lia|].
    intros ->. by rewrite lookup_nil in Hk. }
  destruct results as [|r0 rest].
  { by apply Forall2_nil_inv_l in Hsub. }
  exists st, r0. split; [done|]. split; [done|]. split.
  { unfold check_set. rewrite Hst. unfold conclude.
    rewrite Hcomplete, Hsols. by destruct sols. }
  split; [done|]. split; [by rewrite Hsols|]. split; [exact Hvalue|].
  intros idx Hidx.
  destruct (covering_solution n _ idx Hcover) as (k & s & Hk & Hin); [lia|].
  apply in_range_spec in Hin.
  pose proof (list_elem_of_lookup_2 _ _ _ Hk) as Hs.
  destruct (Hbounds s Hs) as (Hw & _ & _).
  unfold well_formed in Hw. rewrite andb_true_iff, Z.leb_le, Z.eqb_eq in Hw.
  destruct (lookup_lt_is_Some_2 (values s) (Z.to_nat (idx - start_idx s)))
    as [v Hv]; [lia|].
  exists v. replace idx with (start_idx s + Z.of_nat (Z.to_nat (idx - start_idx s)))
    by lia.
  by apply Hvalue.
Qed.

(** C2, amended.  When the results submit, in any order, well-formed
    partial solutions whose ranges are disjoint and together make up
    [0, n-1] (n at least 1), [check_set] returns 0 with [retry] clear,
    [canonicalid] the id of the first result and [credit] ten per
    component summed over the submitted solutions; every submitted
    solution is accepted, in the order of arrival, and [max_idx] is
    [n - 1].  While the loop runs, its local vectors hold at each index
    exactly the value submitted for it.  But no value leaves [check_set]:
    what it gives back is the same for every other such partition with
    the same ranges and the same first id, whatever values it submits. *)
Theorem partition_merge_succeeds
    (n : Z) (results : list RESULT) (sols : list PartialSolution)
    (c0 : Z) (cr0 : float) :
  0 < n →
  Forall2 (λ r sol, submitted r = Some sol) results sols →
  is_partition n sols = true →
  ∃ st r0,
    head results = Some r0
    ∧ process_results initial_state results = Some st
    ∧ check_set results c0 cr0
      = Some (mkResult 0 (id r0) (credit_of sols) false)
    ∧ solutions st = sols
    ∧ max_end_idx (solutions st) = n - 1
    ∧ (∀ sol j v, sol ∈ sols → values sol !! j = Some v →
         merged_value st (start_idx sol + Z.of_nat j) = Some v)
    ∧ (∀ idx, 0 ≤ idx < n → is_Some (merged_value st idx))
    ∧ (∀ results' sols' r0',
         Forall2 (λ r sol, submitted r = Some sol) results' sols' →
         is_partition n sols' = true →
         map range_of sols' = map range_of sols →
         head results' = Some r0' →
         id r0' = id r0 →
         check_set results' c0 cr0 = check_set results c0 cr0).
Proof.
  intros Hn Hsub Hpart.
  destruct (partition_merge_result n results sols c0 cr0 Hn Hsub Hpart)
    as (st & r0 & Hhead & Hst & Hcs & Hsols & Hmax & Hvalue & Hsome).
  exists st, r0. repeat (split; [done|]).
  intros results' sols' r0' Hsub' Hpart' Hranges Hhead' Hid.
  destruct (partition_merge_result n results' sols' c0 cr0 Hn Hsub' Hpart')
    as (st' & r1 & Hhead1 & _ & Hcs' & _).
  rewrite Hhead' in Hhead1. injection Hhead1 as <-.
  by rewrite Hcs, Hcs', Hid, (credit_of_ranges sols sols' Hranges).
Qed.

Lemma partition_merge_succeeds_witness :
  ∃ st r0,
    head partition_results = Some r0
    ∧ process_results initial_state partition_results = Some st
    ∧ check_set partition_results 0 0%float
      = Some (mkResult 0 (id r0) (credit_of partition_sols) false)
    ∧ solutions st = partition_sols
    ∧ max_end_idx (solutions st) = 6 - 1
    ∧ (∀ sol j v, sol ∈ partition_sols → values sol !! j = Some v →
         merged_value st (start_idx sol + Z.of_nat j) = Some v)
    ∧ (∀ idx, 0 ≤ idx < 6 → is_Some (merged_value st idx))
    ∧ (∀ results' sols' r0',
         Forall2 (λ r sol, submitted r = Some sol) results' sols' →
         is_partition 6 sols' = true →
         map range_of sols' = map range_of partition_sols →
         head results' = Some r0' →
         id r0' = id r0 →
         check_set results' 0 0%float = check_set partition_results 0 0%float).
Proof.
  apply (partition_merge_succeeds 6 partition_results partition_sols
           0 0%float).
  - lia.
  - repeat constructor.
  - vm_compute. reflexivity.
Defined.

(** C2 as stated fails: no merged value array is emitted.  Two
    partitions of [0, 5] with the same ranges and ids submit different
    values (1 and 10 for component 0, as the local vectors show), and
    [check_set] gives back the same for both: 0, the first id, 60
    credits, no retry. *)
Lemma merge_emits_no_values :
  is_partition 6 partition_sols = true
  ∧ is_partition 6 tenfold_sols = true
  ∧ option_map (λ st, merged_value st 0)
      (process_results initial_state partition_results)
    = Some (Some 1%float)
  ∧ option_map (λ st, merged_value st 0)
      (process_results initial_state tenfold_results)
    = Some (Some 10%float)
  ∧ PrimFloat.eqb 1 10 = false
  ∧ check_set partition_results 0 0%float
    = Some (mkResult 0 11 60%float false)
  ∧ check_set tenfold_results 0 0%float
    = Some (mkResult 0 11 60%float false).
Proof. vm_compute. repeat split; reflexivity. Qed.

End ValidatorProofs.

(* ===================================================================== *)
(** ** Properties of the solver *)
(* ===================================================================== *)

Module SolverProofs.
Import Solver SolverInputs.

(** *** Comparisons of doubles *)

Lemma compare_cont_swap (p q : positive) :
  PosDef.Pos.compare_cont Eq q p = CompOpp (PosDef.Pos.compare_cont Eq p q).
Proof. exact (eq_sym (Pos.compare_cont_antisym p q Eq)). Qed.

Lemma SFcompare_antisym x y :
  SFcompare y x = option_map CompOpp (SFcompare x y).
Proof.
  destruct x as [sx|sx| |sx mx ex], y as [sy|sy| |sy my ey]; simpl;
    try reflexivity;
    try (destruct sx; reflexivity); try (destruct sy; reflexivity);
    try (destruct sx, sy; reflexivity).
  destruct sx, sy; simpl; try reflexivity;
    rewrite (Z.compare_antisym ey ex);
    destruct (ey ?= ex)%Z eqn:Hc; simpl; try reflexivity;
    rewrite (compare_cont_swap mx my);
    destruct (PosDef.Pos.compare_cont Eq mx my); reflexivity.
Qed.

Lemma not_nan_Prim2SF x : PrimFloat.is_nan x = false → Prim2SF x ≠ S754_nan.
Proof.
  unfold PrimFloat.is_nan. rewrite FloatAxioms.eqb_spec. intros H Hnan.
  rewrite Hnan in H. discriminate.
Qed.

(** For numbers, "not below" is "at least". *)
Lemma not_ltb_iff_leb x e :
  Prim2SF x ≠ S754_nan → Prim2SF e ≠ S754_nan →
  PrimFloat.ltb x e = false ↔ PrimFloat.leb e x = true.
Proof.
  intros Hx He. rewrite FloatAxioms.ltb_spec, FloatAxioms.leb_spec. unfold SFltb, SFleb.
  rewrite (SFcompare_antisym (Prim2SF x) (Prim2SF e)).
  destruct (SFcompare (Prim2SF x) (Prim2SF e)) as [[]|] eqn:Hc; simpl;
    try (split; congruence).
  exfalso. destruct (Prim2SF x) as [| | |]; destruct (Prim2SF e) as [| | |];
    simpl in Hc; congruence.
Qed.

Lemma abs_not_nan x : PrimFloat.is_nan x = false → Prim2SF (PrimFloat.abs x) ≠ S754_nan.
Proof.
  intros H. apply not_nan_Prim2SF in H. rewrite FloatAxioms.abs_spec.
  by destruct (Prim2SF x).
Qed.

Lemma epsilon_not_nan : Prim2SF 1e-12%float ≠ S754_nan.
Proof. apply not_nan_Prim2SF. vm_compute. reflexivity. Qed.

(** *** The iteration form *)

Lemma fill_entry_frame data i diag j :
  n (fill_entry data i diag j) = n data
  ∧ A (fill_entry data i diag j) = A data
  ∧ b (fill_entry data i diag j) = b data
  ∧ f (fill_entry data i diag j) = f data
  ∧ start_idx (fill_entry data i diag j) = start_idx data
  ∧ end_idx (fill_entry data i diag j) = end_idx data
  ∧ num_walks (fill_entry data i diag j) = num_walks data.
Proof. unfold fill_entry. by destruct (i =? j). Qed.

Lemma fill_entry_C data i diag j k l :
  C (fill_entry data i diag j) k l
  = if (k =? i) && (l =? j)
    then (if i =? j then 0%float
          else (PrimFloat.opp (A data i j) / diag)%float)
    else C data k l.
Proof. unfold fill_entry. by destruct (i =? j). Qed.

Lemma fill_entry_row_sum data i diag j k :
  row_sum (fill_entry data i diag j) k
  = if k =? i
    then PrimFloat.add (row_sum data i)
           (PrimFloat.abs (if i =? j then 0%float
                           else (PrimFloat.opp (A data i j) / diag)%float))
    else row_sum data k.
Proof.
  unfold fill_entry.
  destruct (i =? j); simpl; unfold vset, mset; by rewrite !Z.eqb_refl.
Qed.

Lemma fill_row_frame i diag js data :
  n (fill_row data i diag js) = n data
  ∧ A (fill_row data i diag js) = A data
  ∧ b (fill_row data i diag js) = b data
  ∧ f (fill_row data i diag js) = f data
  ∧ start_idx (fill_row data i diag js) = start_idx data
  ∧ end_idx (fill_row data i diag js) = end_idx data
  ∧ num_walks (fill_row data i diag js) = num_walks data.
Proof.
  revert data. induction js as [|j rest IH]; intros data; simpl; [done|].
  destruct (IH (fill_entry data i diag j)) as (-> & -> & -> & -> & -> & -> & ->).
  apply fill_entry_frame.
Qed.

Lemma fill_row_C i diag js data k l :
  C (fill_row data i diag js) k l
  = if (k =? i) && bool_decide (l ∈ js)
    then (if i =? l then 0%float
          else (PrimFloat.opp (A data i l) / diag)%float)
    else C data k l.
Proof.
  revert data. induction js as [|j rest IH]; intros data; cbn [fill_row].
  - case_bool_decide as Hin; [by apply elem_of_nil in Hin|].
    by rewrite andb_false_r.
  - rewrite IH, fill_entry_C.
    destruct (fill_entry_frame data i diag j) as (_ & -> & _).
    destruct (Z.eqb_spec k i) as [->|Hk]; simpl; [|done].
    do 2 case_bool_decide; rewrite ?elem_of_cons in *.
    + done.
    + tauto.
    + destruct (Z.eqb_spec l j) as [->|Hne]; [done | tauto].
    + destruct (Z.eqb_spec l j) as [->|Hne]; [tauto | done].
Qed.

Lemma fill_row_row_sum i diag js data k :
  row_sum (fill_row data i diag js) k
  = if k =? i
    then fold_left PrimFloat.add
           (map (λ j, PrimFloat.abs
                        (if i =? j then 0%float
                         else (PrimFloat.opp (A data i j) / diag)%float)) js)
           (row_sum data i)
    else row_sum data k.
Proof.
  revert data. induction js as [|j rest IH]; intros data; cbn [fill_row].
  - simpl. by destruct (Z.eqb_spec k i) as [->|].
  - rewrite IH, !fill_entry_row_sum.
    destruct (fill_entry_frame data i diag j) as (_ & -> & _).
    rewrite Z.eqb_refl. by destruct (k =? i).
Qed.

Lemma prepare_row_frame data i :
  n (prepare_row data i) = n data
  ∧ A (prepare_row data i) = A data
  ∧ b (prepare_row data i) = b data.
Proof.
  unfold prepare_row.
  destruct (fill_row_frame i (A data i i) (seqZ 0 (n data))
              (set_row_sum (set_f data i (b data i / A data i i)%float) i 0%float))
    as (Hn & HA & Hb & _).
  done.
Qed.

Lemma prepare_row_f data i k :
  f (prepare_row data i) k
  = if k =? i then (b data i / A data i i)%float else f data k.
Proof.
  unfold prepare_row.
  destruct (fill_row_frame i (A data i i) (seqZ 0 (n data))
              (set_row_sum (set_f data i (b data i / A data i i)%float) i 0%float))
    as (_ & _ & _ & Hf & _).
  simpl in *. by rewrite Hf.
Qed.

Lemma prepare_row_C data i k l :
  C (prepare_row data i) k l
  = if (k =? i) && bool_decide (0 ≤ l < n data)
    then entry (A data) i l else C data k l.
Proof.
  unfold prepare_row. simpl. rewrite fill_row_C. simpl.
  destruct (k =? i); simpl; [|done].
  do 2 case_bool_decide; rewrite ?elem_of_seqZ in *; try done; lia.
Qed.

Lemma prepare_row_row_sum data i k :
  row_sum (prepare_row data i) k
  = if k =? i
    then fold_left PrimFloat.add
           (map (λ j, PrimFloat.abs (entry (A data) i j)) (seqZ 0 (n data)))
           0%float
    else row_sum data k.
Proof.
  unfold prepare_row. simpl. rewrite fill_row_row_sum. simpl.
  destruct (Z.eqb_spec k i) as [->|Hk]; unfold vset.
  - by rewrite Z.eqb_refl.
  - by rewrite (proj2 (Z.eqb_neq k i) Hk).
Qed.

(** What the loop over the rows leaves behind. *)
Lemma prepare_rows_spec rows data :
  let ret := fst (prepare_rows data rows) in
  let data' := snd (prepare_rows data rows) in
  (n data' = n data ∧ A data' = A data ∧ b data' = b data)
  ∧ (ret = 0 ∨ ret = -1)
  ∧ (ret = 0 ↔
     ∀ i, i ∈ rows →
          PrimFloat.ltb (PrimFloat.abs (A data i i)) 1e-12%float = false)
  ∧ (∀ k, k ∉ rows →
          f data' k = f data k ∧ row_sum data' k = row_sum data k
          ∧ ∀ l, C data' k l = C data k l)
  ∧ (ret = 0 → ∀ i, i ∈ rows →
       f data' i = (b data i / A data i i)%float
       ∧ (∀ l, 0 ≤ l < n data → C data' i l = entry (A data) i l)
       ∧ row_sum data' i
         = fold_left PrimFloat.add
             (map (λ j, PrimFloat.abs (entry (A data) i j))
                  (seqZ 0 (n data))) 0%float).
Proof.
  revert data. induction rows as [|i rest IH]; intros data; cbn [prepare_rows].
  - simpl. split; [done|]. split; [by left|]. split.
    { split; [|done]. intros _ i Hi. by apply elem_of_nil in Hi. }
    split; [done|]. intros _ i Hi. by apply elem_of_nil in Hi.
  - destruct (PrimFloat.ltb (PrimFloat.abs (A data i i)) 1e-12%float) eqn:Hd.
    + simpl. split; [done|]. split; [by right|]. split.
      { split; [done|]. intros H. specialize (H i (list_elem_of_here _ _)).
        congruence. }
      split; [done | done].
    + specialize (IH (prepare_row data i)). cbv zeta in IH.
      destruct (prepare_row_frame data i) as (Hn & HA & Hb).
      rewrite Hn, HA, Hb in IH.
      destruct IH as (Hframe & Hret & Hiff & Hout & Hin).
      cbv zeta. split; [done|]. split; [done|]. split.
      { rewrite Hiff. split.
        - intros H k Hk. apply elem_of_cons in Hk as [->|Hk]; [done | by apply H].
        - intros H k Hk. apply H. by right. }
      split.
      { intros k Hk. rewrite not_elem_of_cons in Hk. destruct Hk as [Hki Hk].
        destruct (Hout k Hk) as (Hf & Hrs & HC).
        rewrite Hf, Hrs, prepare_row_f, prepare_row_row_sum.
        rewrite (proj2 (Z.eqb_neq k i) Hki). split; [done|]. split; [done|].
        intros l. rewrite HC, prepare_row_C.
        by rewrite (proj2 (Z.eqb_neq k i) Hki). }
      intros Hok k Hk.
      destruct (decide (k ∈ rest)) as [Hrest|Hrest]; [by apply Hin|].
      apply elem_of_cons in Hk as [->|Hk]; [|done].
      destruct (Hout i Hrest) as (Hf & Hrs & HC).
      rewrite Hf, Hrs, prepare_row_f, prepare_row_row_sum, Z.eqb_refl.
      split; [done|]. split; [|done].
      intros l Hl. rewrite HC, prepare_row_C, Z.eqb_refl.
      by rewrite bool_decide_eq_true_2.
Qed.

(** [simpleAxbMC.c] builds the same iteration form. *)
Lemma simple_fill_entry sys data i diag j :
  Simple.same_arrays sys data →
  Simple.same_arrays (Simple.fill_entry sys i diag j)
                     (fill_entry data i diag j).
Proof.
  destruct sys, data. unfold Simple.same_arrays. simpl.
  intros (-> & -> & -> & -> & -> & ->).
  unfold Simple.fill_entry, fill_entry. simpl.
  by destruct (i =? j).
Qed.

Lemma simple_fill_row sys data i diag js :
  Simple.same_arrays sys data →
  Simple.same_arrays (Simple.fill_row sys i diag js)
                     (fill_row data i diag js).
Proof.
  revert sys data. induction js as [|j rest IH]; intros sys data H; simpl.
  - done.
  - by apply IH, simple_fill_entry.
Qed.

Lemma simple_prepare_row sys data i :
  Simple.same_arrays sys data →
  Simple.same_arrays (Simple.prepare_row sys i) (prepare_row data i).
Proof.
  intros H. unfold Simple.prepare_row, prepare_row.
  pose proof H as (Hn & HA & Hb & _). simpl. rewrite Hn, HA, Hb.
  apply simple_fill_row.
  destruct sys, data. unfold Simple.same_arrays in *. simpl in *.
  destruct H as (-> & -> & -> & -> & -> & ->). done.
Qed.

Lemma simple_prepare_rows sys data rows :
  Simple.same_arrays sys data →
  fst (Simple.prepare_rows sys rows) = fst (prepare_rows data rows)
  ∧ Simple.same_arrays (snd (Simple.prepare_rows sys rows))
                       (snd (prepare_rows data rows)).
Proof.
  revert sys data. induction rows as [|i rest IH]; intros sys data H; simpl.
  - done.
  - pose proof H as (_ & HA & _). rewrite HA.
    destruct (PrimFloat.ltb _ _); [done|].
    by apply IH, simple_prepare_row.
Qed.

(** C6.  [prepare_iteration_form] returns 0 or -1.  It returns 0 exactly
    when no diagonal element has [fabs(A[i][i]) < 1e-12]; for diagonal
    elements that are numbers (not NaN) that is: exactly when every one has
    [fabs(A[i][i]) >= 1e-12].  After a successful call, for every row [i]
    below [n]: [f[i] = b[i] / A[i][i]], [C[i][i] = 0],
    [C[i][j] = -A[i][j] / A[i][i]] for the other columns, and [row_sum[i]]
    is the sum over [j] of [fabs(C[i][j])], added up from [j = 0];
    [n], [A] and [b] are as before.  The function of [simpleAxbMC.c]
    returns the same value and leaves the same arrays. *)
Theorem prepare_iteration_form_spec
    (data : MonteCarloData) (sys : Simple.LinearSystem) :
  let ret := fst (prepare_iteration_form data) in
  let data' := snd (prepare_iteration_form data) in
  (ret = 0 ∨ ret = -1)
  ∧ (ret = 0 ↔
     ∀ i, 0 ≤ i < n data →
          PrimFloat.ltb (PrimFloat.abs (A data i i)) 1e-12%float = false)
  ∧ ((∀ i, 0 ≤ i < n data → PrimFloat.is_nan (A data i i) = false) →
     (ret = 0 ↔
      ∀ i, 0 ≤ i < n data →
           PrimFloat.leb 1e-12%float (PrimFloat.abs (A data i i)) = true))
  ∧ (ret = 0 →
     iteration_form_of data data'
     ∧ n data' = n data ∧ A data' = A data ∧ b data' = b data)
  ∧ (fst (Simple.prepare_iteration_form sys)
     = fst (prepare_iteration_form (Simple.as_data sys))
     ∧ Simple.same_arrays
         (snd (Simple.prepare_iteration_form sys))
         (snd (prepare_iteration_form (Simple.as_data sys)))).
Proof.
  assert (Hsimple :
    fst (Simple.prepare_iteration_form sys)
    = fst (prepare_iteration_form (Simple.as_data sys))
    ∧ Simple.same_arrays
        (snd (Simple.prepare_iteration_form sys))
        (snd (prepare_iteration_form (Simple.as_data sys)))).
  { apply (simple_prepare_rows sys (Simple.as_data sys)). by destruct sys. }
  revert Hsimple. generalize (Simple.prepare_iteration_form sys).
  generalize (prepare_iteration_form (Simple.as_data sys)).
  intros simple_mc simple_out Hsimple.
  unfold prepare_iteration_form.
  destruct (prepare_rows_spec (seqZ 0 (n data)) data)
    as ((Hn & HA & Hb) & Hret & Hiff & _ & Hin).
  cbv zeta.
  assert (Hiff' : fst (prepare_rows data (seqZ 0 (n data))) = 0 ↔
            ∀ i, 0 ≤ i < n data →
              PrimFloat.ltb (PrimFloat.abs (A data i i)) 1e-12%float = false).
  { rewrite Hiff. split.
    - intros H i Hi. apply H, elem_of_seqZ. lia.
    - intros H i Hi. apply H. apply elem_of_seqZ in Hi. lia. }
  split; [done|]. split; [done|]. split.
  - intros Hnum. rewrite Hiff'. split.
    + intros H i Hi. apply not_ltb_iff_leb;
        [apply abs_not_nan; auto | apply epsilon_not_nan | auto].
    + intros H i Hi. apply not_ltb_iff_leb;
        [apply abs_not_nan; auto | apply epsilon_not_nan | auto].
  - split; [|exact Hsimple].
    intros Hok. split; [|done]. intros i Hi.
    destruct (Hin Hok i) as (Hf & HC & Hrs); [apply elem_of_seqZ; lia|].
    split; [done|]. split.
    { rewrite HC by done. unfold entry. by rewrite Z.eqb_refl. }
    split.
    { intros j Hj Hji. rewrite HC by done. unfold entry.
      by rewrite (proj2 (Z.eqb_neq i j)). }
    rewrite Hrs. f_equal. apply map_ext_in. intros j Hj.
    apply list_elem_of_In, elem_of_seqZ in Hj. rewrite HC; [done | lia].
Qed.

Lemma prepare_iteration_form_spec_witness :
  fst (prepare_iteration_form small_system) = 0 ↔
  ∀ i, 0 ≤ i < n small_system →
       PrimFloat.leb 1e-12%float (PrimFloat.abs (A small_system i i)) = true.
Proof.
  destruct (prepare_iteration_form_spec small_system
              (Simple.mkSystem 0 (λ _ _, 0%float) (λ _, 0%float)
                 (λ _ _, 0%float) (λ _, 0%float) (λ _, 0%float)
                 (λ _, 0%float) (λ _, 0%float))) as (_ & _ & H & _).
  apply H. intros i Hi.
  assert (i = 0 ∨ i = 1) as [-> | ->] by (simpl in Hi; lia);
    vm_compute; reflexivity.
Defined.

(** The iteration form has [row_sum[i]] equal to the last prefix sum of
    row [i], which is what the selection loop of the walk relies on. *)
Lemma iteration_form_row_sum data data' i :
  iteration_form_of data data' → n data' = n data → 0 ≤ i < n data →
  row_sum data' i = prefix_sum data' i (n data' - 1).
Proof.
  intros Hform Hn Hi. destruct (Hform i Hi) as (_ & _ & _ & Hrs).
  rewrite Hrs. unfold prefix_sum. rewrite Hn.
  by replace (n data - 1 + 1) with (n data) by lia.
Qed.

(** *** One iteration of the walk *)

Section Walk.

Variable RAND_MAX : Z.
Variable rand : N → Z.

Lemma prefix_sum_next data cur lo :
  0 ≤ lo →
  prefix_sum data cur lo
  = (fold_left PrimFloat.add
       (map (λ k, PrimFloat.abs (C data cur k)) (seqZ 0 lo)) 0
     + PrimFloat.abs (C data cur lo))%float.
Proof.
  intros Hlo. unfold prefix_sum.
  rewrite (seqZ_app 0 lo 1) by lia. rewrite map_app, fold_left_app.
  replace (0 + lo) with lo by lia. reflexivity.
Qed.

(** The selection loop is cumulative-sum inversion; when no prefix sum
    reaches [r] it leaves the state and the weight alone. *)
Lemma select_next_from data cur r w len lo :
  0 ≤ lo →
  select_next data cur r
    (fold_left PrimFloat.add
       (map (λ k, PrimFloat.abs (C data cur k)) (seqZ 0 lo)) 0%float)
    w (seqZ lo (Z.of_nat len))
  = match find (λ j, PrimFloat.leb r (prefix_sum data cur j))
               (seqZ lo (Z.of_nat len)) with
    | Some j =>
        (j, (w * sign_of (C data cur j)
             * (row_sum data cur / (1.0 - TERMINATION_PROB)))%float)
    | None => (cur, w)
    end.
Proof.
  revert lo. induction len as [|len IH]; intros lo Hlo.
  - reflexivity.
  - rewrite (seqZ_cons lo (Z.of_nat (S len))) by lia. cbn [select_next find].
    rewrite <- prefix_sum_next by done.
    destruct (PrimFloat.leb r (prefix_sum data cur lo)); [reflexivity|].
    replace (Z.pred (Z.of_nat (S len))) with (Z.of_nat len) by lia.
    assert (Hsucc : 0 ≤ Z.succ lo) by lia.
    exact (IH (Z.succ lo) Hsucc).
Qed.

Lemma select_next_inversion data cur r w :
  select_next data cur r 0%float w (seqZ 0 (n data))
  = match inversion data cur r with
    | Some j =>
        (j, (w * sign_of (C data cur j)
             * (row_sum data cur / (1.0 - TERMINATION_PROB)))%float)
    | None => (cur, w)
    end.
Proof.
  unfold inversion. destruct (Z.le_gt_cases 0 (n data)) as [Hn|Hn].
  - rewrite <- (Z2Nat.id (n data)) by done.
    apply (select_next_from data cur r w (Z.to_nat (n data)) 0). lia.
  - rewrite seqZ_nil by lia. reflexivity.
Qed.

Lemma walk_body_sum_step data st :
  walk_sum (fst (walk_body RAND_MAX rand data st))
  = (walk_sum st + weight st * f data (current_state st))%float
  ∧ step (fst (walk_body RAND_MAX rand data st)) = step st.
Proof.
  unfold walk_body. cbn [rand_double].
  destruct (PrimFloat.ltb _ TERMINATION_PROB); [done|].
  destruct (PrimFloat.ltb (row_sum data (current_state st)) _); [done|].
  by destruct (select_next _ _ _ _ _ _).
Qed.

(** C7.  One iteration of the walk, in this order: [weight *
    f[current_state]] is added to [sum]; a draw below 0.1 ends the walk
    with that sum; otherwise [row_sum[current_state] < 1e-12] ends it;
    otherwise a second draw, scaled by [row_sum[current_state]], picks the
    next state by cumulative-sum inversion over [fabs(C[current_state][j])]
    and the weight is multiplied by the sign of [C[current_state][j]] and
    by [row_sum[current_state] / (1 - 0.1)].  The inversion finds a state
    whenever [row_sum[current_state]] is the sum of the row, as the
    iteration form has it, and the scaled draw does not exceed it; were
    there none, the walk would go on from the same state with the same
    weight.  The loop runs this body while [step < MAX_STEPS] and the walk
    returns the sum. *)
Theorem walk_iteration_steps (data : MonteCarloData) (st : walk_state) :
  let cur := current_state st in
  let sum1 := (walk_sum st + weight st * f data cur)%float in
  let u1 := fst (rand_double RAND_MAX rand (calls st)) in
  let u2 := fst (rand_double RAND_MAX rand (N.succ (calls st))) in
  let r := (u2 * row_sum data cur)%float in
  (PrimFloat.ltb u1 0.1%float = true →
   walk_body RAND_MAX rand data st
   = (mkWalk sum1 cur (weight st) (step st) (N.succ (calls st)), true))
  ∧ (PrimFloat.ltb u1 0.1%float = false →
     PrimFloat.ltb (row_sum data cur) 1e-12%float = true →
     walk_body RAND_MAX rand data st
     = (mkWalk sum1 cur (weight st) (step st) (N.succ (calls st)), true))
  ∧ (PrimFloat.ltb u1 0.1%float = false →
     PrimFloat.ltb (row_sum data cur) 1e-12%float = false →
     ∀ j, inversion data cur r = Some j →
       walk_body RAND_MAX rand data st
       = (mkWalk sum1 j
            (weight st * sign_of (C data cur j)
             * (row_sum data cur / (1 - 0.1)))%float
            (step st) (N.succ (N.succ (calls st))), false))
  ∧ (0 < n data →
     row_sum data cur = prefix_sum data cur (n data - 1) →
     PrimFloat.leb r (row_sum data cur) = true →
     ∃ j, 0 ≤ j < n data ∧ inversion data cur r = Some j)
  ∧ (PrimFloat.ltb u1 0.1%float = false →
     PrimFloat.ltb (row_sum data cur) 1e-12%float = false →
     inversion data cur r = None →
     walk_body RAND_MAX rand data st
     = (mkWalk sum1 cur (weight st) (step st) (N.succ (N.succ (calls st))),
        false))
  ∧ (∀ fuel,
       walk_loop RAND_MAX rand (S fuel) data st
       = if step st <? MAX_STEPS then
           if snd (walk_body RAND_MAX rand data st)
           then Some (fst (walk_body RAND_MAX rand data st))
           else walk_loop RAND_MAX rand fuel data
                  (next_step (fst (walk_body RAND_MAX rand data st)))
         else Some st).
Proof.
  cbv zeta. split; [|split; [|split; [|split; [|split]]]].
  - intros Hu. unfold walk_body. cbn [rand_double fst] in *.
    unfold TERMINATION_PROB. by rewrite Hu.
  - intros Hu Hrs. unfold walk_body. cbn [rand_double fst] in *.
    unfold TERMINATION_PROB. by rewrite Hu, Hrs.
  - intros Hu Hrs j Hj. unfold walk_body. cbn [rand_double fst] in *.
    unfold TERMINATION_PROB at 1. rewrite Hu, Hrs.
    by rewrite select_next_inversion, Hj.
  - intros Hn Hrow Hle. unfold inversion.
    destruct (find _ (seqZ 0 (n data))) as [j|] eqn:Hfind.
    + exists j. split; [|done].
      apply find_some in Hfind as [Hin _].
      apply list_elem_of_In, elem_of_seqZ in Hin. lia.
    + exfalso.
      assert (Hlast : PrimFloat.leb
                (fst (rand_double RAND_MAX rand (N.succ (calls st)))
                 * row_sum data (current_state st))%float
                (prefix_sum data (current_state st) (n data - 1)) = false).
      { apply (find_none _ _ Hfind (n data - 1)).
        apply list_elem_of_In, elem_of_seqZ. lia. }
      rewrite <- Hrow in Hlast. congruence.
  - intros Hu Hrs Hnone. unfold walk_body. cbn [rand_double fst] in *.
    unfold TERMINATION_PROB at 1. rewrite Hu, Hrs.
    by rewrite select_next_inversion, Hnone.
  - intros fuel. cbn [walk_loop].
    destruct (step st <? MAX_STEPS); [|done].
    by destruct (walk_body RAND_MAX rand data st) as [st' []].
Qed.

End Walk.

Lemma walk_iteration_steps_witness :
  walk_body rand_max lcg small_form (walk_start 0 0)
  = (mkWalk (0 + 1 * f small_form 0%Z)%float 1
       (1 * sign_of (C small_form 0%Z 1%Z)
        * (row_sum small_form 0%Z / (1 - 0.1)))%float
       0 2, false).
Proof.
  destruct (walk_iteration_steps rand_max lcg small_form (walk_start 0 0))
    as (_ & _ & H & _).
  apply (H eq_refl eq_refl 1). vm_compute. reflexivity.
Defined.

(** *** Termination of the walk *)

Section Termination.

Variable RAND_MAX : Z.
Variable rand : N → Z.

(** [MAX_STEPS - step] bounds the iterations still to come: any fuel
    above it reaches the end of the loop, with the same final state. *)
Lemma walk_loop_total data m :
  ∀ st, (Z.to_nat (MAX_STEPS - step st) ≤ m)%nat →
    ∃ st', ∀ fuel, (m < fuel)%nat →
      walk_loop RAND_MAX rand fuel data st = Some st'
      ∧ (length (walk_visits RAND_MAX rand fuel data st)
         ≤ Z.to_nat (MAX_STEPS - step st))%nat
      ∧ (step st < MAX_STEPS →
         (1 ≤ length (walk_visits RAND_MAX rand fuel data st))%nat)
      ∧ walk_sum st'
        = fold_left (add_contribution data)
            (walk_visits RAND_MAX rand fuel data st) (walk_sum st).
Proof.
  induction m as [|m IH]; intros st Hm.
  - exists st. intros [|fuel] Hfuel; [lia|].
    cbn [walk_loop walk_visits].
    destruct (Z.ltb_spec (step st) MAX_STEPS) as [Hlt|Hge]; [lia|].
    simpl. split; [done|]. split; [lia|]. split; [lia | done].
  - destruct (Z.ltb_spec (step st) MAX_STEPS) as [Hlt|Hge].
    + destruct (walk_body_sum_step RAND_MAX rand data st) as [Hsum Hstep].
      destruct (walk_body RAND_MAX rand data st) as [st1 broke] eqn:Hbody.
      simpl in Hsum, Hstep. destruct broke.
      * exists st1. intros [|fuel] Hfuel; [lia|].
        cbn [walk_loop walk_visits].
        rewrite (proj2 (Z.ltb_lt _ _) Hlt), Hbody. simpl.
        split; [done|]. split; [lia|]. split; [lia | done].
      * destruct (IH (next_step st1)) as [st' Hst'].
        { simpl. lia. }
        exists st'. intros [|fuel] Hfuel; [lia|].
        cbn [walk_loop walk_visits].
        rewrite (proj2 (Z.ltb_lt _ _) Hlt), Hbody.
        destruct (Hst' fuel) as (Hloop & Hlen & _ & Hfold); [lia|].
        simpl in Hlen. cbn [length fold_left].
        split; [done|]. split; [lia|]. split; [lia|].
        rewrite Hfold. simpl. by rewrite Hsum.
    + exists st. intros [|fuel] Hfuel; [lia|].
      cbn [walk_loop walk_visits].
      rewrite (proj2 (Z.ltb_ge _ _) Hge). simpl.
      split; [done|]. split; [lia|]. split; [lia | done].
Qed.

Lemma random_walk_total data start_state k :
  ∃ w k', random_walk RAND_MAX rand data start_state k = Some (w, k').
Proof.
  destruct (walk_loop_total data (Z.to_nat MAX_STEPS) (walk_start start_state k))
    as [st Hst]; [simpl; lia|].
  destruct (Hst (S (Z.to_nat MAX_STEPS))) as (Hloop & _); [lia|].
  unfold random_walk. rewrite Hloop. eauto.
Qed.

(** C8.  Every walk ends, whatever [rand()] returns: the loop reaches its
    end within [MAX_STEPS] = 10000 iterations (more fuel changes nothing),
    [random_walk] returns the sum, and that sum is made of at least one
    and at most 10000 contributions [weight * f[current_state]]. *)
Theorem random_walk_terminates
    (data : MonteCarloData) (start_state : Z) (k : N) :
  ∃ st,
    random_walk RAND_MAX rand data start_state k
    = Some (walk_sum st, calls st)
    ∧ ∀ fuel, 10000 < Z.of_nat fuel →
        walk_loop RAND_MAX rand fuel data (walk_start start_state k) = Some st
        ∧ 1 ≤ Z.of_nat (length (walk_visits RAND_MAX rand fuel data
                                  (walk_start start_state k))) ≤ 10000
        ∧ walk_sum st
          = fold_left (add_contribution data)
              (walk_visits RAND_MAX rand fuel data (walk_start start_state k))
              0%float.
Proof.
  destruct (walk_loop_total data (Z.to_nat MAX_STEPS) (walk_start start_state k))
    as [st Hst]; [simpl; lia|].
  assert (Hmax : MAX_STEPS = 10000) by reflexivity.
  exists st. split.
  - destruct (Hst (S (Z.to_nat MAX_STEPS))) as (Hloop & _); [lia|].
    unfold random_walk. by rewrite Hloop.
  - intros fuel Hfuel.
    destruct (Hst fuel) as (Hloop & Hlen & Hone & Hfold); [lia|].
    simpl in Hlen, Hone. rewrite Z.sub_0_r in Hlen.
    specialize (Hone eq_refl).
    split; [done|]. split; [lia | done].
Qed.

End Termination.

Lemma random_walk_terminates_witness :
  ∃ st,
    random_walk rand_max lcg small_form 0 0 = Some (walk_sum st, calls st)
    ∧ walk_loop rand_max lcg (S (Z.to_nat MAX_STEPS)) small_form (walk_start 0 0)
      = Some st
    ∧ 1 ≤ Z.of_nat (length (walk_visits rand_max lcg (S (Z.to_nat MAX_STEPS))
                              small_form (walk_start 0 0))) ≤ 10000.
Proof.
  destruct (random_walk_terminates rand_max lcg small_form 0 0) as (st & Hrw & H).
  exists st. split; [exact Hrw|].
  assert (Hfuel : 10000 < Z.of_nat (S (Z.to_nat MAX_STEPS))).
  { apply Z.ltb_lt. vm_compute. reflexivity. }
  destruct (H (S (Z.to_nat MAX_STEPS)) Hfuel) as (Hloop & Hlen & _).
  split; [exact Hloop | exact Hlen].
Defined.

(** *** The component solver *)

Section Components.

Variable RAND_MAX : Z.
Variable rand : N → Z.

Lemma walk_samples_total count data i k :
  ∃ ws k', walk_samples RAND_MAX rand count data i k = Some (ws, k')
           ∧ length ws = count.
Proof.
  revert k. induction count as [|count IH]; intros k; simpl.
  - by exists [], k.
  - destruct (random_walk_total RAND_MAX rand data i k) as (w & k1 & ->).
    destruct (IH k1) as (ws & k2 & -> & Hlen).
    exists (w :: ws), k2. simpl. by rewrite Hlen.
Qed.

(** The accumulating loop adds up the samples, from the left. *)
Lemma sum_walks_samples count data i acc k ws k' :
  walk_samples RAND_MAX rand count data i k = Some (ws, k') →
  sum_walks RAND_MAX rand count data i acc k
  = Some (fold_left PrimFloat.add ws acc, k').
Proof.
  revert acc k ws. induction count as [|count IH]; intros acc k ws; simpl.
  - by intros [= <- <-].
  - destruct (random_walk RAND_MAX rand data i k) as [[w k1]|]; [|done].
    destruct (walk_samples RAND_MAX rand count data i k1) as [[ws1 k2]|] eqn:Hs;
      [|done].
    intros [= <- <-]. simpl. by apply IH.
Qed.

Lemma estimates_total data idxs k :
  ∃ es k', estimates RAND_MAX rand data idxs k = Some (es, k')
           ∧ length es = length idxs.
Proof.
  revert k. induction idxs as [|idx rest IH]; intros k; simpl.
  - by exists [], k.
  - destruct (walk_samples_total (Z.to_nat (num_walks data)) data
                (start_idx data + idx) k) as (ws & k1 & -> & _).
    destruct (IH k1) as (es & k2 & -> & Hlen).
    eexists _, k2. split; [done|]. simpl. by rewrite Hlen.
Qed.

(** The loop over the components writes the estimates into [x_partial],
    in the order of the indices, and touches nothing else. *)
Lemma compute_components_estimates data idxs x k es k' :
  NoDup idxs →
  estimates RAND_MAX rand data idxs k = Some (es, k') →
  ∃ x', compute_components RAND_MAX rand data idxs x k = Some (x', k')
        ∧ map x' idxs = es
        ∧ ∀ j, j ∉ idxs → x' j = x j.
Proof.
  revert x k es. induction idxs as [|idx rest IH]; intros x k es Hnd; simpl.
  - intros [= <- <-]. by exists x.
  - apply NoDup_cons in Hnd as [Hidx Hnd].
    destruct (walk_samples RAND_MAX rand (Z.to_nat (num_walks data)) data
                (start_idx data + idx) k) as [[ws k1]|] eqn:Hws; [|done].
    rewrite (sum_walks_samples _ _ _ _ _ _ _ Hws).
    destruct (estimates RAND_MAX rand data rest k1) as [[es1 k2]|] eqn:Hes;
      [|done].
    intros [= <- <-].
    destruct (IH (vset x idx
                    (fold_left PrimFloat.add ws 0
                     / double_of_int (num_walks data))%float) k1 es1 Hnd Hes)
      as (x' & Hx' & Hmap & Hout).
    exists x'. split; [done|]. split.
    + rewrite Hmap, (Hout idx Hidx). unfold vset. by rewrite Z.eqb_refl.
    + intros j Hj. rewrite not_elem_of_cons in Hj. destruct Hj as [Hne Hj].
      rewrite (Hout j Hj). unfold vset.
      by rewrite (proj2 (Z.eqb_neq j idx) Hne).
Qed.



End Components.


End SolverProofs.

(* ===================================================================== *)
(** ** More about doubles *)
(* ===================================================================== *)

Module FloatFacts.

Lemma SFadd_comm prec emax x y : SFadd prec emax x y = SFadd prec emax y x.
Proof.
  destruct x as [sx|sx| |sx mx ex], y as [sy|sy| |sy my ey]; simpl;
    try reflexivity; try (destruct sx, sy; reflexivity).
  rewrite (Z.min_comm ey ex). f_equal. apply Z.add_comm.
Qed.

(** Addition of doubles commutes. *)
Lemma add_comm (a b : float) : (a + b)%float = (b + a)%float.
Proof.
  apply Prim2SF_inj. rewrite !FloatAxioms.add_spec. apply SFadd_comm.
Qed.

Lemma SFabs_binary_round_aux prec emax s s' m e l :
  SFabs (binary_round_aux prec emax s m e l)
  = SFabs (binary_round_aux prec emax s' m e l).
Proof.
  unfold binary_round_aux.
  destruct (shr_fexp prec emax m e l) as [mrs' e'].
  destruct (shr_fexp prec emax _ e' loc_Exact) as [mrs'' e''].
  destruct (shr_m mrs'') as [|p|p]; try reflexivity.
  by destruct (e'' <=? emax - prec).
Qed.

Lemma SFabs_binary_normalize_opp prec emax m e sz :
  SFabs (binary_normalize prec emax (- m) e sz)
  = SFabs (binary_normalize prec emax m e sz).
Proof.
  destruct m as [|p|p]; simpl; try reflexivity; unfold binary_round;
    destruct (shl_align p e _) as [mz ez]; apply SFabs_binary_round_aux.
Qed.

Lemma SFabs_sub_swap prec emax x y :
  SFabs (SFsub prec emax x y) = SFabs (SFsub prec emax y x).
Proof.
  destruct x as [sx|sx| |sx mx ex], y as [sy|sy| |sy my ey]; simpl;
    try reflexivity; try (destruct sx, sy; reflexivity).
  rewrite (Z.min_comm ey ex).
  rewrite <- (SFabs_binary_normalize_opp prec emax
                (cond_Zopp sy (Z.pos (fst (shl_align my ey (Z.min ex ey))))
                 - cond_Zopp sx (Z.pos (fst (shl_align mx ex (Z.min ex ey)))))).
  f_equal. f_equal. lia.
Qed.

(** [fabs(a - b)] is [fabs(b - a)]. *)
Lemma abs_sub_swap (a b : float) :
  PrimFloat.abs (a - b)%float = PrimFloat.abs (b - a)%float.
Proof.
  apply Prim2SF_inj.
  rewrite !FloatAxioms.abs_spec, !FloatAxioms.sub_spec. apply SFabs_sub_swap.
Qed.

Lemma consistency_error_sym a b :
  Validator.consistency_error a b = Validator.consistency_error b a.
Proof.
  unfold Validator.consistency_error.
  by rewrite (abs_sub_swap a b), (add_comm (PrimFloat.abs a) (PrimFloat.abs b)).
Qed.

(** [fabs(a - a)] is zero, or NaN when [a] is not finite. *)
Lemma abs_sub_self (a : float) :
  Prim2SF (PrimFloat.abs (a - a)%float) = S754_zero false
  ∨ Prim2SF (PrimFloat.abs (a - a)%float) = S754_nan.
Proof.
  rewrite FloatAxioms.abs_spec, FloatAxioms.sub_spec. unfold SF64sub.
  destruct (Prim2SF a) as [s|s| |s m e]; simpl.
  - left. by destruct s.
  - right. by destruct s.
  - by right.
  - left. by rewrite Z.sub_diag.
Qed.

Lemma ltb_nan_r (t x : float) :
  Prim2SF x = S754_nan → PrimFloat.ltb t x = false.
Proof.
  intros Hx. rewrite FloatAxioms.ltb_spec, Hx. unfold SFltb.
  by destruct (Prim2SF t).
Qed.

Lemma ltb_zero_r (t x : float) :
  Prim2SF x = S754_zero false →
  PrimFloat.ltb t 0%float = false → PrimFloat.ltb t x = false.
Proof.
  intros Hx Ht. assert (x = 0%float) as ->; [|done].
  apply Prim2SF_inj. by rewrite Hx.
Qed.

(** A value is never inconsistent with itself, whatever it is. *)
Lemma consistency_error_self (tolerance a : float) :
  PrimFloat.ltb tolerance 0%float = false →
  PrimFloat.ltb tolerance (Validator.consistency_error a a) = false.
Proof.
  intros Htol. unfold Validator.consistency_error.
  set (avg := ((PrimFloat.abs a + PrimFloat.abs a) / 2)%float).
  destruct (abs_sub_self a) as [Hzero|Hnan].
  - destruct (PrimFloat.ltb 1e-10%float avg) eqn:Havg.
    + apply ltb_zero_r; [|done].
      rewrite FloatAxioms.div_spec, Hzero. unfold SF64div.
      rewrite FloatAxioms.ltb_spec in Havg. unfold SFltb in Havg.
      destruct (Prim2SF avg) as [s|s| |s m e]; simpl in Havg |- *;
        try discriminate; destruct s; try discriminate; reflexivity.
    + by apply ltb_zero_r.
  - destruct (PrimFloat.ltb 1e-10%float avg).
    + apply ltb_nan_r. rewrite FloatAxioms.div_spec, Hnan. reflexivity.
    + by apply ltb_nan_r.
Qed.

Lemma inconsistent_self (a : float) : Validator.inconsistent a a = false.
Proof. apply consistency_error_self. reflexivity. Qed.

Lemma inconsistent_sym (a b : float) :
  Validator.inconsistent a b = Validator.inconsistent b a.
Proof. unfold Validator.inconsistent. by rewrite consistency_error_sym. Qed.

Lemma is_nan_Prim2SF (a : float) :
  PrimFloat.is_nan a = true → Prim2SF a = S754_nan.
Proof.
  unfold PrimFloat.is_nan. rewrite FloatAxioms.eqb_spec. unfold SFeqb.
  destruct (Prim2SF a) as [s|s| |s m e]; simpl; try done.
  - by destruct s.
  - rewrite Z.compare_refl.
    change (PosDef.Pos.compare_cont Eq m m) with (Pos.compare m m).
    rewrite Pos.compare_refl. by destruct s.
Qed.

(** With a NaN on the left, [error] is NaN and [error > 0.01] is false. *)
Lemma inconsistent_nan_l (a b : float) :
  Prim2SF a = S754_nan → Validator.inconsistent a b = false.
Proof.
  intros Ha. unfold Validator.inconsistent, Validator.consistency_error.
  assert (Hdiff : Prim2SF (PrimFloat.abs (a - b)%float) = S754_nan).
  { rewrite FloatAxioms.abs_spec, FloatAxioms.sub_spec, Ha. reflexivity. }
  assert (Havg : Prim2SF ((PrimFloat.abs a + PrimFloat.abs b) / 2)%float
                 = S754_nan).
  { rewrite FloatAxioms.div_spec, FloatAxioms.add_spec, FloatAxioms.abs_spec,
      Ha. reflexivity. }
  rewrite (ltb_nan_r 1e-10%float _ Havg). by apply ltb_nan_r.
Qed.

Lemma inconsistent_nan (a b : float) :
  PrimFloat.is_nan a = true ∨ PrimFloat.is_nan b = true →
  Validator.inconsistent a b = false.
Proof.
  intros [Ha|Hb].
  - by apply inconsistent_nan_l, is_nan_Prim2SF.
  - rewrite inconsistent_sym. by apply inconsistent_nan_l, is_nan_Prim2SF.
Qed.

End FloatFacts.

(* ===================================================================== *)
(** ** More about the validator *)
(* ===================================================================== *)

Module ValidatorExtras.
Import Validator MergeInputs ExtraInputs ValidatorProofs.

(** *** [compare_partial_solutions] *)

Lemma components_agree_iff tolerance values1 values2 :
  length values1 = length values2 →
  components_agree tolerance values1 values2 = true ↔
  ∀ i v1 v2, values1 !! i = Some v1 → values2 !! i = Some v2 →
    PrimFloat.ltb tolerance (consistency_error v1 v2) = false.
Proof.
  revert values2. induction values1 as [|a rest1 IH]; intros [|c rest2] Hlen;
    simpl in Hlen; try discriminate; simpl.
  - split; [|done]. intros _ i v1 v2 H. by rewrite lookup_nil in H.
  - destruct (PrimFloat.ltb tolerance (consistency_error a c)) eqn:Hac.
    + split; [done|]. intros H. specialize (H 0%nat a c eq_refl eq_refl).
      congruence.
    + rewrite IH by lia. split.
      * intros H [|i] v1 v2; simpl; [by intros [= <-] [= <-] | apply H].
      * intros H i v1 v2. apply (H (S i)).
Qed.

Lemma components_agree_sym tolerance values1 values2 :
  components_agree tolerance values1 values2
  = components_agree tolerance values2 values1.
Proof.
  revert values2. induction values1 as [|a rest1 IH]; intros [|c rest2];
    simpl; try reflexivity.
  rewrite (FloatFacts.consistency_error_sym a c). by rewrite IH.
Qed.

Lemma components_agree_refl tolerance vs :
  PrimFloat.ltb tolerance 0%float = false →
  components_agree tolerance vs vs = true.
Proof.
  intros Htol. induction vs as [|a rest IH]; simpl; [done|].
  by rewrite FloatFacts.consistency_error_self.
Qed.

(** X1.  [compare_partial_solutions] is symmetric in its two solutions,
    for every tolerance. *)
Theorem compare_partial_solutions_symmetric
    (sol1 sol2 : PartialSolution) (tolerance : float) :
  compare_partial_solutions sol1 sol2 tolerance
  = compare_partial_solutions sol2 sol1 tolerance.
Proof.
  unfold compare_partial_solutions.
  rewrite (Z.eqb_sym (start_idx sol1)), (Z.eqb_sym (end_idx sol1)).
  rewrite (Nat.eqb_sym (length (values sol1))).
  by rewrite components_agree_sym.
Qed.

(** X2.  With a tolerance that is not negative, every solution agrees
    with itself, NaN and infinite components included. *)
Theorem compare_partial_solutions_reflexive
    (sol : PartialSolution) (tolerance : float) :
  PrimFloat.ltb tolerance 0%float = false →
  compare_partial_solutions sol sol tolerance = true.
Proof.
  intros Htol. unfold compare_partial_solutions.
  rewrite !Z.eqb_refl, Nat.eqb_refl. simpl.
  by apply components_agree_refl.
Qed.

Lemma compare_partial_solutions_reflexive_witness :
  compare_partial_solutions
    (mkPartialSolution 0 2 [nan; infinity; 1]%float)
    (mkPartialSolution 0 2 [nan; infinity; 1]%float) 0.01%float = true.
Proof. apply compare_partial_solutions_reflexive. reflexivity. Defined.

Lemma compare_partial_solutions_true_iff' sol1 sol2 tolerance :
  compare_partial_solutions sol1 sol2 tolerance = true ↔
  start_idx sol1 = start_idx sol2
  ∧ end_idx sol1 = end_idx sol2
  ∧ length (values sol1) = length (values sol2)
  ∧ ∀ i v1 v2, values sol1 !! i = Some v1 → values sol2 !! i = Some v2 →
      PrimFloat.ltb tolerance (consistency_error v1 v2) = false.
Proof.
  unfold compare_partial_solutions.
  destruct (Z.eqb_spec (start_idx sol1) (start_idx sol2)) as [Hs|Hs]; simpl;
    [|split; [done | tauto]].
  destruct (Z.eqb_spec (end_idx sol1) (end_idx sol2)) as [He|He]; simpl;
    [|split; [done | tauto]].
  destruct (Nat.eqb_spec (length (values sol1)) (length (values sol2)))
    as [Hl|Hl]; simpl; [|split; [done | tauto]].
  rewrite components_agree_iff by done. tauto.
Qed.

(** X3.  [compare_partial_solutions] says [true] exactly when the two
    ranges are the same, the two value vectors have the same size, and no
    component has an error above the tolerance. *)
Theorem compare_partial_solutions_true_iff
    (sol1 sol2 : PartialSolution) (tolerance : float) :
  compare_partial_solutions sol1 sol2 tolerance = true ↔
  start_idx sol1 = start_idx sol2
  ∧ end_idx sol1 = end_idx sol2
  ∧ length (values sol1) = length (values sol2)
  ∧ ∀ i v1 v2, values sol1 !! i = Some v1 → values sol2 !! i = Some v2 →
      PrimFloat.ltb tolerance (consistency_error v1 v2) = false.
Proof. apply compare_partial_solutions_true_iff'. Qed.

(** *** [compare_results] against [check_set] *)

Lemma parsed_inv r sol :
  parsed r = Some sol →
  ∃ file files, output_files r = Some (file :: files)
                ∧ parse_result file = ParseOk sol.
Proof.
  unfold parsed. destruct (output_files r) as [[|file files]|]; try done.
  destruct (parse_result file) eqn:Hp; try done. intros [= <-]. eauto.
Qed.

Lemma process_result_parsed st r sol :
  parsed r = Some sol → process_result st r = Some (add_solution st sol).
Proof.
  intros (file & files & Hf & Hp)%parsed_inv.
  unfold process_result. by rewrite Hf, Hp.
Qed.

Lemma value_at_lookup sol i v :
  values sol !! i = Some v → value_at sol (start_idx sol + Z.of_nat i) = v.
Proof.
  intros Hv. unfold value_at.
  replace (Z.to_nat (start_idx sol + Z.of_nat i - start_idx sol)) with i by lia.
  by apply nth_lookup_Some.
Qed.

(** X4.  For two results whose first output files parse to solutions of
    the same range, [compare_results] and [check_set] agree: [match] is
    set exactly when [check_set], given the two results in this order,
    accepts the second after the first. *)
Theorem compare_results_agrees_with_check_set
    (r1 r2 : RESULT) (files1 files2 : list OUTPUT_FILE_INFO)
    (sol1 sol2 : PartialSolution) :
  output_files r1 = Some files1 →
  output_files r2 = Some files2 →
  parsed r1 = Some sol1 →
  parsed r2 = Some sol2 →
  start_idx sol1 = start_idx sol2 →
  end_idx sol1 = end_idx sol2 →
  ∃ m st,
    compare_results files1 files2 = Some (0, m)
    ∧ process_results initial_state [r1; r2] = Some st
    ∧ solutions st = if m then [sol1; sol2] else [sol1].
Proof.
  intros Hf1 Hf2 Hp1 Hp2 Hs He.
  destruct (parsed_inv _ _ Hp1) as (file1 & rest1 & Hf1' & Hparse1).
  destruct (parsed_inv _ _ Hp2) as (file2 & rest2 & Hf2' & Hparse2).
  rewrite Hf1 in Hf1'. injection Hf1' as ->.
  rewrite Hf2 in Hf2'. injection Hf2' as ->.
  pose proof (parse_result_ok _ _ Hparse1) as Hlen1.
  pose proof (parse_result_ok _ _ Hparse2) as Hlen2.
  exists (compare_partial_solutions sol1 sol2 0.01%float). eexists.
  split; [by simpl; rewrite Hparse1, Hparse2|].
  cbn [process_results].
  rewrite (process_result_parsed _ _ _ Hp1), (process_result_parsed _ _ _ Hp2).
  split; [done|].
  set (st1 := add_solution initial_state sol1).
  assert (Hst1 : st1 = mkState [sol1]
                   (mark_covered ∅ 0 (index_range (start_idx sol1) (end_idx sol1)))).
  { unfold st1, add_solution.
    by rewrite overlap_valid_unclaimed by (intros; apply lookup_empty). }
  assert (Hiff : overlap_valid st1 sol2 (index_range (start_idx sol2) (end_idx sol2))
                 = compare_partial_solutions sol1 sol2 0.01%float).
  { apply eq_true_iff_eq. rewrite overlap_valid_true.
    rewrite compare_partial_solutions_true_iff'. split.
    - intros H. split; [done|]. split; [done|]. split; [lia|].
      intros i v1 v2 Hv1 Hv2.
      pose proof (lookup_lt_Some _ _ _ Hv1) as Hi.
      specialize (H (start_idx sol2 + Z.of_nat i) 0%nat).
      rewrite Hst1 in H. simpl in H.
      rewrite lookup_mark_covered_in in H
        by (apply elem_of_index_range; lia).
      rewrite (value_at_lookup sol2 i v2 Hv2) in H.
      rewrite <- Hs, (value_at_lookup sol1 i v1 Hv1) in H.
      change (inconsistent v1 v2 = false).
      rewrite FloatFacts.inconsistent_sym. apply H; [|done].
      apply elem_of_index_range. lia.
    - intros (_ & _ & _ & H) idx k Hidx Hk.
      apply elem_of_index_range in Hidx.
      rewrite Hst1 in Hk |- *. simpl in Hk |- *.
      rewrite lookup_mark_covered_in in Hk
        by (apply elem_of_index_range; lia).
      injection Hk as <-. simpl.
      destruct (lookup_lt_is_Some_2 (values sol1)
                  (Z.to_nat (idx - start_idx sol1))) as [v1 Hv1]; [lia|].
      destruct (lookup_lt_is_Some_2 (values sol2)
                  (Z.to_nat (idx - start_idx sol2))) as [v2 Hv2]; [lia|].
      unfold value_at.
      rewrite (nth_lookup_Some _ _ _ _ Hv1), (nth_lookup_Some _ _ _ _ Hv2).
      rewrite FloatFacts.inconsistent_sym.
      rewrite Hs in Hv1. exact (H _ v1 v2 Hv1 Hv2). }
  unfold add_solution at 1. rewrite Hiff.
  destruct (compare_partial_solutions sol1 sol2 0.01%float);
    by rewrite Hst1.
Qed.

Lemma compare_results_agrees_with_check_set_witness :
  ∃ m st,
    compare_results
      [Readable (Some (0, 1)) [1; 1]%float]
      [Readable (Some (0, 1)) [1.005; 0.999]%float] = Some (0, m)
    ∧ process_results initial_state
        [result_with 1 sol_x; result_with 2 sol_x_close] = Some st
    ∧ solutions st = if m then [sol_x; sol_x_close] else [sol_x].
Proof.
  apply (compare_results_agrees_with_check_set
           (result_with 1 sol_x) (result_with 2 sol_x_close)
           _ _ sol_x sol_x_close); reflexivity.
Defined.

(** *** Results that do not count, and results that end the validator *)

Lemma process_result_skipped st r :
  skipped r = true → process_result st r = Some st.
Proof.
  unfold skipped, process_result.
  destruct (output_files r) as [[|file files]|]; try done.
  by destruct (parse_result file).
Qed.

Lemma process_results_skipped st results :
  forallb skipped results = true → process_results st results = Some st.
Proof.
  induction results as [|r rest IH]; simpl; [done|].
  rewrite andb_true_iff. intros [Hr Hrest].
  rewrite process_result_skipped by done. by apply IH.
Qed.

(** X5.  When every result is passed over (no file list, no file, or a
    first file that cannot be opened, has no range line or has too few
    values), and so also for an empty vector of results, [check_set]
    returns -1 with [retry] set and leaves [canonicalid] and [credit]
    alone. *)
Theorem no_usable_result_retry
    (results : list RESULT) (c0 : Z) (cr0 : float) :
  forallb skipped results = true →
  check_set results c0 cr0 = Some (mkResult (-1) c0 cr0 true).
Proof.
  intros Hall. unfold check_set. by rewrite process_results_skipped.
Qed.

Lemma no_usable_result_retry_witness :
  check_set unusable_results 0 0%float = Some (mkResult (-1) 0 0%float true).
Proof. apply no_usable_result_retry. reflexivity. Defined.

Lemma process_result_None st r :
  process_result st r = None ↔ throws r = true.
Proof.
  unfold throws, process_result.
  destruct (output_files r) as [[|file files]|]; try done.
  by destruct (parse_result file).
Qed.

Lemma process_results_None st results :
  process_results st results = None ↔ existsb throws results = true.
Proof.
  revert st. induction results as [|r rest IH]; intros st; simpl; [done|].
  rewrite orb_true_iff, <- (process_result_None st r).
  destruct (process_result st r) as [st1|] eqn:H1.
  - rewrite IH. split; [tauto | by intros [|]].
  - split; [tauto | done].
Qed.

(** X6.  One result whose first output file declares a range with
    [end_idx - start_idx + 1 < 0] (the difference of the two [int]s
    computed without overflow) ends [check_set] by the exception of
    [values.resize] in [parse_result], wherever the result stands in the
    input and whatever the other results hold: nothing is returned, no
    retry is asked for. *)
Theorem negative_count_ends_check_set
    (results : list RESULT) (r : RESULT) (files : list OUTPUT_FILE_INFO)
    (s e : Z) (numbers : list float) (c0 : Z) (cr0 : float) :
  r ∈ results →
  output_files r = Some (Readable (Some (s, e)) numbers :: files) →
  - 2 ^ 31 ≤ e - s →
  e - s + 1 < 0 →
  check_set results c0 cr0 = None.
Proof.
  intros Hr Hf _ Hneg. unfold check_set.
  assert (Hex : existsb throws results = true).
  { apply existsb_exists. exists r. split; [by apply list_elem_of_In|].
    unfold throws. rewrite Hf. simpl.
    by rewrite (proj2 (Z.ltb_lt _ _) Hneg). }
  apply process_results_None with (st := initial_state) in Hex.
  by rewrite Hex.
Qed.

(** *** What the loop keeps *)

Lemma add_solution_grows st sol :
  (∃ more, solutions (add_solution st sol) = solutions st ++ more)
  ∧ ∀ idx, is_Some (component_coverage st !! idx) →
           is_Some (component_coverage (add_solution st sol) !! idx).
Proof.
  unfold add_solution. destruct (overlap_valid _ _ _); simpl.
  - split; [eauto|]. intros idx Hidx. rewrite lookup_mark_covered.
    by case_bool_decide.
  - split; [|done]. exists []. by rewrite app_nil_r.
Qed.

Lemma process_result_grows st r st' :
  process_result st r = Some st' →
  (∃ more, solutions st' = solutions st ++ more)
  ∧ ∀ idx, is_Some (component_coverage st !! idx) →
           is_Some (component_coverage st' !! idx).
Proof.
  unfold process_result.
  assert (Hsame : (∃ more, solutions st = solutions st ++ more)
                  ∧ ∀ idx, is_Some (component_coverage st !! idx) →
                           is_Some (component_coverage st !! idx)).
  { split; [|done]. exists []. by rewrite app_nil_r. }
  destruct (output_files r) as [[|file files]|]; try (by intros [= <-]).
  destruct (parse_result file); try (by intros [= <-]).
  intros [= <-]. apply add_solution_grows.
Qed.

(** X7.  The loop over the results only ever adds: the solutions
    accepted so far stay at their positions in the accepted list, and an
    index that is claimed stays claimed (possibly by a later solution). *)
Theorem accepted_and_claimed_never_dropped
    (results : list RESULT) (st st' : merge_state) :
  process_results st results = Some st' →
  (∃ more, solutions st' = solutions st ++ more)
  ∧ ∀ idx, is_Some (component_coverage st !! idx) →
           is_Some (component_coverage st' !! idx).
Proof.
  revert st. induction results as [|r rest IH]; intros st; simpl.
  - intros [= <-]. split; [|done]. exists []. by rewrite app_nil_r.
  - destruct (process_result st r) as [st1|] eqn:H1; [|done].
    intros Hrest. destruct (process_result_grows _ _ _ H1) as [[m1 Hm1] Hc1].
    destruct (IH _ Hrest) as [[m2 Hm2] Hc2]. split.
    + exists (m1 ++ m2). by rewrite Hm2, Hm1, app_assoc.
    + intros idx Hidx. by apply Hc2, Hc1.
Qed.

Lemma accepted_and_claimed_never_dropped_witness :
  (∃ more, solutions gap_state = solutions after_low ++ more)
  ∧ ∀ idx, is_Some (component_coverage after_low !! idx) →
           is_Some (component_coverage gap_state !! idx).
Proof.
  apply (accepted_and_claimed_never_dropped [result_with 2 gap_high]).
  reflexivity.
Defined.

Lemma negative_count_ends_check_set_witness :
  check_set (unusable_results ++ [reversed_range_result]) 0 0%float = None.
Proof.
  apply (negative_count_ends_check_set _ reversed_range_result [] 5 3 []).
  - apply list_elem_of_In, in_or_app. right. by left.
  - reflexivity.
  - lia.
  - lia.
Defined.

Lemma claimed_value results st idx k :
  process_results initial_state results = Some st →
  component_coverage st !! idx = Some k →
  ∃ sol, solutions st !! k = Some sol
         ∧ 0 ≤ idx - start_idx sol < Z.of_nat (length (values sol))
         ∧ merged_value st idx = Some (value_at sol idx).
Proof.
  intros Hst Hk.
  destruct (reachable_wf _ _ Hst idx k Hk) as (sol & Hsol & Hr & Hlen).
  exists sol. split; [done|]. split; [lia|].
  unfold merged_value. rewrite Hk, Hsol. unfold value_at.
  destruct (lookup_lt_is_Some_2 (values sol) (Z.to_nat (idx - start_idx sol)))
    as [v Hv]; [lia|].
  by rewrite Hv, (nth_lookup_Some _ _ _ _ Hv).
Qed.

(** X8.  Throughout [check_set], whatever the results hold, a claimed
    index names a position inside [solutions], and the index minus that
    solution's [start_idx] is a position inside its [values]: the reads
    [solutions[prev_sol_idx]] and [values[prev_local_idx]] of the overlap
    check never leave their vectors. *)
Theorem overlap_reads_stay_in_bounds
    (results : list RESULT) (st : merge_state) (idx : Z) (k : nat) :
  process_results initial_state results = Some st →
  component_coverage st !! idx = Some k →
  (k < length (solutions st))%nat
  ∧ ∃ sol, solutions st !! k = Some sol
           ∧ 0 ≤ idx - start_idx sol < Z.of_nat (length (values sol)).
Proof.
  intros Hst Hk.
  destruct (claimed_value _ _ _ _ Hst Hk) as (sol & Hsol & Hr & _).
  split; [by eapply lookup_lt_Some | eauto].
Qed.

Lemma overlap_reads_stay_in_bounds_witness :
  (2 < length (solutions (fold_left add_solution [sol_x; sol_y; sol_b]
                            initial_state)))%nat
  ∧ ∃ sol, solutions (fold_left add_solution [sol_x; sol_y; sol_b]
                        initial_state) !! 2%nat = Some sol
           ∧ 0 ≤ 1 - start_idx sol < Z.of_nat (length (values sol)).
Proof.
  apply (overlap_reads_stay_in_bounds chain_results _ 1 2%nat).
  - reflexivity.
  - vm_compute. reflexivity.
Defined.

(** X9.  After a successful [check_set] every index from 0 to [max_idx]
    holds the value of an accepted solution, and [max_idx] is the largest
    [end_idx] of the accepted solutions, or 0 if none is above 0: it is
    not below 0 nor below any accepted [end_idx], and it is 0 or the
    [end_idx] of an accepted solution. *)
Theorem successful_merge_covers_every_index
    (results : list RESULT) (c0 : Z) (cr0 : float)
    (st : merge_state) (out : check_set_result) :
  process_results initial_state results = Some st →
  check_set results c0 cr0 = Some out →
  retval out = 0 →
  retry out = false
  ∧ (∀ idx, 0 ≤ idx ≤ max_end_idx (solutions st) →
       ∃ k sol, component_coverage st !! idx = Some k
                ∧ solutions st !! k = Some sol
                ∧ start_idx sol ≤ idx ≤ end_idx sol
                ∧ merged_value st idx = Some (value_at sol idx))
  ∧ 0 ≤ max_end_idx (solutions st)
  ∧ (∀ sol, sol ∈ solutions st → end_idx sol ≤ max_end_idx (solutions st))
  ∧ (max_end_idx (solutions st) = 0
     ∨ ∃ sol, sol ∈ solutions st
              ∧ end_idx sol = max_end_idx (solutions st)).
Proof.
  intros Hst Hcs Hret.
  destruct (check_set_success _ _ _ _ Hcs Hret)
    as (st' & r0 & rest & Hst' & -> & _ & Hcomplete & ->).
  rewrite Hst in Hst'. injection Hst' as <-. split; [done|].
  split; [|exact (max_end_idx_fold (solutions st) 0)].
  intros idx Hidx. unfold complete in Hcomplete.
  rewrite forallb_forall in Hcomplete.
  specialize (Hcomplete idx). unfold covered in Hcomplete.
  destruct (component_coverage st !! idx) as [k|] eqn:Hk.
  - destruct (claimed_value _ _ _ _ Hst Hk) as (sol & Hsol & Hr & Hv).
    destruct (reachable_wf _ _ Hst idx k Hk) as (sol' & Hsol' & Hr' & _).
    rewrite Hsol in Hsol'. injection Hsol' as <-.
    by exists k, sol.
  - assert (false = true); [|done].
    apply Hcomplete, list_elem_of_In, elem_of_index_range. lia.
Qed.

Lemma successful_merge_covers_every_index_witness :
  retry (mkResult 0 1 120%float false) = false
  ∧ (∀ idx, 0 ≤ idx ≤ max_end_idx (solutions three_ranges_state) →
       ∃ k sol, component_coverage three_ranges_state !! idx = Some k
                ∧ solutions three_ranges_state !! k = Some sol
                ∧ start_idx sol ≤ idx ≤ end_idx sol
                ∧ merged_value three_ranges_state idx
                  = Some (value_at sol idx))
  ∧ 0 ≤ max_end_idx (solutions three_ranges_state)
  ∧ (∀ sol, sol ∈ solutions three_ranges_state →
            end_idx sol ≤ max_end_idx (solutions three_ranges_state))
  ∧ (max_end_idx (solutions three_ranges_state) = 0
     ∨ ∃ sol, sol ∈ solutions three_ranges_state
              ∧ end_idx sol = max_end_idx (solutions three_ranges_state)).
Proof.
  apply (successful_merge_covers_every_index three_ranges_results 0 0%float).
  - vm_compute. reflexivity.
  - vm_compute. reflexivity.
  - reflexivity.
Defined.

(** *** The accepted list and the contributors *)

Lemma accepts_parsed st r :
  accepts st r = true →
  ∃ sol, parsed r = Some sol
         ∧ overlap_valid st sol (index_range (start_idx sol) (end_idx sol))
           = true.
Proof.
  unfold accepts, parsed, process_result.
  destruct (output_files r) as [[|file files]|];
    try (rewrite Nat.ltb_irrefl; discriminate).
  destruct (parse_result file) as [sol| |];
    try (rewrite ?Nat.ltb_irrefl; discriminate).
  unfold add_solution.
  destruct (overlap_valid st sol _) eqn:Hov; [eauto|].
  simpl. rewrite Nat.ltb_irrefl. discriminate.
Qed.

Lemma process_result_solutions st r st' :
  process_result st r = Some st' →
  solutions st'
  = solutions st ++ (if accepts st r then
                       match parsed r with Some sol => [sol] | None => [] end
                     else []).
Proof.
  intros Hstep. unfold accepts. rewrite Hstep. revert Hstep.
  unfold parsed, process_result.
  destruct (output_files r) as [[|file files]|];
    try (intros [= <-]; by rewrite Nat.ltb_irrefl, app_nil_r).
  destruct (parse_result file) as [sol| |];
    try (intros [= <-]; by rewrite Nat.ltb_irrefl, app_nil_r).
  intros [= <-]. unfold add_solution.
  destruct (overlap_valid _ _ _); simpl.
  - rewrite length_app. simpl.
    by rewrite (proj2 (Nat.ltb_lt _ _)) by lia.
  - by rewrite Nat.ltb_irrefl, app_nil_r.
Qed.

Lemma solutions_of_contributors results st st' :
  process_results st results = Some st' →
  solutions st' = solutions st ++ omap parsed (contributing st results).
Proof.
  revert st. induction results as [|r rest IH]; intros st; simpl.
  - intros [= <-]. by rewrite app_nil_r.
  - destruct (process_result st r) as [st1|] eqn:H1; [|done].
    intros Hrest. rewrite (IH _ Hrest), (process_result_solutions _ _ _ H1).
    rewrite <- app_assoc. f_equal.
    destruct (accepts st r) eqn:Hacc; simpl; [|done].
    destruct (accepts_parsed _ _ Hacc) as (sol & -> & _). done.
Qed.

(** X10.  The accepted solutions are, in their order, exactly what
    [parse_result] read from the first output files of the contributing
    results: one solution per contributor, none from anywhere else. *)
Theorem accepted_solutions_come_from_contributors
    (results : list RESULT) (st : merge_state) :
  process_results initial_state results = Some st →
  map Some (solutions st) = map parsed (contributing initial_state results)
  ∧ contributing initial_state results ⊆+ results.
Proof.
  intros Hst. split.
  - rewrite (solutions_of_contributors _ _ _ Hst). simpl.
    clear Hst. generalize initial_state.
    induction results as [|r rest IH]; intros st0; simpl; [done|].
    destruct (process_result st0 r) as [st1|] eqn:H1; [|done].
    destruct (accepts st0 r) eqn:Hacc; simpl; [|apply IH].
    destruct (accepts_parsed _ _ Hacc) as (sol & Hsol & _).
    rewrite Hsol. simpl. f_equal. apply IH.
  - clear Hst. generalize initial_state.
    induction results as [|r rest IH]; intros st0; simpl; [done|].
    destruct (process_result st0 r) as [st1|]; [|apply submseteq_nil_l].
    destruct (accepts st0 r); simpl.
    + apply submseteq_skip, IH.
    + apply submseteq_cons, IH.
Qed.

Lemma accepted_solutions_come_from_contributors_witness :
  map Some (solutions after_low)
  = map parsed (contributing initial_state
                  [mkRESULT 7 (Some []); result_with 1 sol_low;
                   result_with 2 sol_high])
  ∧ contributing initial_state
      [mkRESULT 7 (Some []); result_with 1 sol_low; result_with 2 sol_high]
    ⊆+ [mkRESULT 7 (Some []); result_with 1 sol_low; result_with 2 sol_high].
Proof.
  apply accepted_solutions_come_from_contributors. vm_compute. reflexivity.
Defined.

(** *** Repeated and padded results *)

(** X11.  A result that was accepted is accepted again when it is
    submitted once more right after: a value is never inconsistent with
    itself (NaN included), so the second copy is appended too and its
    components are counted in the credit a second time. *)
Theorem identical_result_accepted_again
    (st : merge_state) (r : RESULT) :
  accepts st r = true →
  ∃ sol st1 st2,
    parsed r = Some sol
    ∧ process_result st r = Some st1
    ∧ process_result st1 r = Some st2
    ∧ solutions st2 = solutions st ++ [sol; sol]
    ∧ accepts st1 r = true
    ∧ credit_of (solutions st2)
      = (credit_of (solutions st)
         + double_of_int (component_count sol) * 10.0
         + double_of_int (component_count sol) * 10.0)%float.
Proof.
  intros Hacc. destruct (accepts_parsed _ _ Hacc) as (sol & Hsol & Hov).
  pose (st1 := mkState (solutions st ++ [sol])
                 (mark_covered (component_coverage st) (length (solutions st))
                    (index_range (start_idx sol) (end_idx sol)))).
  assert (H1 : add_solution st sol = st1).
  { unfold add_solution. by rewrite Hov. }
  assert (Hov1 : overlap_valid st1 sol
                   (index_range (start_idx sol) (end_idx sol)) = true).
  { apply overlap_valid_true. intros idx k Hidx Hk. simpl in Hk.
    rewrite lookup_mark_covered_in in Hk by done. injection Hk as <-.
    simpl. rewrite app_nth2 by lia. rewrite Nat.sub_diag. simpl.
    apply FloatFacts.inconsistent_self. }
  assert (H2 : add_solution st1 sol
               = mkState ((solutions st ++ [sol]) ++ [sol])
                   (mark_covered (component_coverage st1)
                      (length (solutions st1))
                      (index_range (start_idx sol) (end_idx sol)))).
  { unfold add_solution. by rewrite Hov1. }
  exists sol, st1, (add_solution st1 sol).
  split; [done|]. split; [by rewrite (process_result_parsed _ _ _ Hsol), H1|].
  split; [by rewrite (process_result_parsed _ _ _ Hsol)|].
  split; [by rewrite H2, <- app_assoc|]. split.
  - unfold accepts. rewrite (process_result_parsed _ _ _ Hsol), H2. simpl.
    apply Nat.ltb_lt. rewrite !length_app. simpl. lia.
  - rewrite H2. simpl. unfold credit_of. by rewrite !fold_left_app.
Qed.

Lemma identical_result_accepted_again_witness :
  ∃ sol st1 st2,
    parsed (result_with 2 sol_high) = Some sol
    ∧ process_result initial_state (result_with 2 sol_high) = Some st1
    ∧ process_result st1 (result_with 2 sol_high) = Some st2
    ∧ solutions st2 = solutions initial_state ++ [sol; sol]
    ∧ accepts st1 (result_with 2 sol_high) = true
    ∧ credit_of (solutions st2)
      = (credit_of (solutions initial_state)
         + double_of_int (component_count sol) * 10.0
         + double_of_int (component_count sol) * 10.0)%float.
Proof.
  apply identical_result_accepted_again. vm_compute. reflexivity.
Defined.

Lemma conclude_same_first_id r0 r0' l1 l2 c0 cr0 st :
  id r0 = id r0' →
  conclude (r0 :: l1) c0 cr0 st = conclude (r0' :: l2) c0 cr0 st.
Proof. intros Hid. unfold conclude. by rewrite Hid. Qed.

(** X12.  [check_set] uses of a result only the first [end_idx -
    start_idx + 1] values of its first output file: numbers after them in
    that file, and all further output files, change nothing in what it
    returns. *)
Theorem values_beyond_range_ignored
    (pre post : list RESULT) (rid s e : Z) (vs extra : list float)
    (files : list OUTPUT_FILE_INFO) (c0 : Z) (cr0 : float) :
  Z.of_nat (length vs) = e - s + 1 →
  check_set
    (pre ++ mkRESULT rid (Some (Readable (Some (s, e)) (vs ++ extra) :: files))
         :: post) c0 cr0
  = check_set
      (pre ++ mkRESULT rid (Some [Readable (Some (s, e)) vs]) :: post) c0 cr0.
Proof.
  intros Hlen.
  assert (Hstep : ∀ st,
    process_result st
      (mkRESULT rid (Some (Readable (Some (s, e)) (vs ++ extra) :: files)))
    = process_result st (mkRESULT rid (Some [Readable (Some (s, e)) vs]))).
  { intros st. unfold process_result. simpl.
    destruct (Z.ltb_spec (e - s + 1) 0); [lia|].
    rewrite length_app.
    destruct (Z.ltb_spec (Z.of_nat (length vs + length extra)) (e - s + 1));
      [lia|].
    destruct (Z.ltb_spec (Z.of_nat (length vs)) (e - s + 1)); [lia|].
    replace (Z.to_nat (e - s + 1)) with (length vs) by lia.
    by rewrite take_app_length, firstn_all. }
  unfold check_set. rewrite !process_results_app.
  destruct (process_results initial_state pre) as [st|]; [|done].
  cbn [process_results]. rewrite Hstep.
  destruct (process_result st _) as [st1|]; [|done].
  destruct (process_results st1 post) as [st2|]; [|done].
  f_equal. destruct pre as [|r0 pre']; simpl.
  - by apply conclude_same_first_id.
  - by apply conclude_same_first_id.
Qed.

Lemma values_beyond_range_ignored_witness :
  check_set
    ([] ++ mkRESULT 1 (Some (Readable (Some (0, 1)) ([1; 2] ++ [3; 4])%float
                             :: [Unreadable])) :: []) 0 0%float
  = check_set
      ([] ++ mkRESULT 1 (Some [Readable (Some (0, 1)) [1; 2]%float]) :: [])
      0 0%float.
Proof. apply values_beyond_range_ignored. reflexivity. Defined.

(** *** NaN values *)

(** X20.  [check_set] never turns a solution down for a NaN: a parsed
    solution is accepted, and claims its whole range, as soon as at every
    index of the overlap its own value or the value accepted before is
    NaN, however far apart the two are. *)
Theorem nan_never_inconsistent
    (st : merge_state) (r : RESULT) (sol : PartialSolution) :
  parsed r = Some sol →
  (∀ idx k, start_idx sol ≤ idx ≤ end_idx sol →
            component_coverage st !! idx = Some k →
            PrimFloat.is_nan (value_at sol idx) = true
            ∨ PrimFloat.is_nan
                (value_at (nth k (solutions st) no_solution) idx) = true) →
  process_result st r
  = Some (mkState (solutions st ++ [sol])
            (mark_covered (component_coverage st) (length (solutions st))
               (index_range (start_idx sol) (end_idx sol))))
  ∧ accepts st r = true.
Proof.
  intros Hparsed Hnan.
  assert (Hov : overlap_valid st sol (index_range (start_idx sol) (end_idx sol))
                = true).
  { apply overlap_valid_true. intros idx k Hin Hk.
    apply FloatFacts.inconsistent_nan, (Hnan idx k); [|done].
    by apply elem_of_index_range in Hin. }
  assert (Hstep : process_result st r
                  = Some (mkState (solutions st ++ [sol])
                            (mark_covered (component_coverage st)
                               (length (solutions st))
                               (index_range (start_idx sol) (end_idx sol))))).
  { rewrite (process_result_parsed st r sol Hparsed). unfold add_solution.
    by rewrite Hov. }
  split; [done|]. unfold accepts. rewrite Hstep. simpl.
  rewrite length_app. simpl. apply Nat.ltb_lt. lia.
Qed.

Lemma nan_never_inconsistent_witness :
  process_result after_low nan_result
  = Some (mkState (solutions after_low ++ [nan_solution])
            (mark_covered (component_coverage after_low)
               (length (solutions after_low))
               (index_range (start_idx nan_solution) (end_idx nan_solution))))
  ∧ accepts after_low nan_result = true.
Proof.
  apply nan_never_inconsistent; [reflexivity|].
  intros idx k Hidx Hk. simpl in Hidx.
  assert (idx = 2 ∨ idx = 3) as [-> | ->] by lia.
  - left. reflexivity.
  - discriminate Hk.
Defined.

End ValidatorExtras.

(* ===================================================================== *)
(** ** More about the solver *)
(* ===================================================================== *)

Module SolverExtras.
Import Solver SolverInputs ExtraInputs SolverProofs.

(** *** [prepare_iteration_form], row by row *)

Lemma bool_decide_elem_of_cons (k i : Z) (l : list Z) :
  bool_decide (k ∈ i :: l) = (k =? i) || bool_decide (k ∈ l).
Proof.
  destruct (Z.eqb_spec k i) as [->|Hne]; simpl.
  - apply bool_decide_eq_true_2. by left.
  - apply bool_decide_ext. rewrite elem_of_cons. tauto.
Qed.

(** What the loop over the rows leaves in every element of [f],
    [row_sum] and [C], whether it ends by [return 0] or [return -1]. *)
Lemma prepare_rows_shape rows data :
  n (snd (prepare_rows data rows)) = n data
  ∧ A (snd (prepare_rows data rows)) = A data
  ∧ b (snd (prepare_rows data rows)) = b data
  ∧ fst (prepare_rows data rows)
    = (if (length (rows_before_failure (A data) rows) =? length rows)%nat
       then 0 else -1)
  ∧ ∀ k,
      f (snd (prepare_rows data rows)) k
      = (if bool_decide (k ∈ rows_before_failure (A data) rows)
         then (b data k / A data k k)%float else f data k)
      ∧ row_sum (snd (prepare_rows data rows)) k
        = (if bool_decide (k ∈ rows_before_failure (A data) rows)
           then fold_left PrimFloat.add
                  (map (λ j, PrimFloat.abs (entry (A data) k j))
                       (seqZ 0 (n data))) 0%float
           else row_sum data k)
      ∧ ∀ l,
          C (snd (prepare_rows data rows)) k l
          = (if bool_decide (k ∈ rows_before_failure (A data) rows)
                && bool_decide (0 ≤ l < n data)
             then entry (A data) k l else C data k l).
Proof.
  revert data. induction rows as [|i rest IH]; intros data;
    cbn [prepare_rows rows_before_failure].
  - simpl. repeat split; try done.
  - destruct (PrimFloat.ltb (PrimFloat.abs (A data i i)) 1e-12%float) eqn:Hd.
    + simpl. repeat split; try done.
    + destruct (prepare_row_frame data i) as (Hn & HA & Hb).
      destruct (IH (prepare_row data i)) as (IHn & IHA & IHb & IHret & IHk).
      rewrite HA in IHret, IHk. rewrite Hn, Hb in IHk.
      split; [congruence|]. split; [congruence|]. split; [congruence|].
      split; [by rewrite IHret|].
      intros k. destruct (IHk k) as (Hf & Hrs & HC).
      rewrite Hf, Hrs, prepare_row_f, prepare_row_row_sum.
      rewrite bool_decide_elem_of_cons.
      split; [|split].
      * destruct (Z.eqb_spec k i) as [->|];
          by destruct (bool_decide (_ ∈ _)).
      * destruct (Z.eqb_spec k i) as [->|];
          by destruct (bool_decide (_ ∈ _)).
      * intros l. rewrite HC, prepare_row_C.
        destruct (Z.eqb_spec k i) as [->|];
          destruct (bool_decide (_ ∈ _));
          by destruct (bool_decide (0 ≤ l < n data)).
Qed.




(** X14.  Calling [prepare_iteration_form] a second time returns the
    same value and changes no element of [f], [row_sum] or [C]. *)
Theorem prepare_iteration_form_idempotent (data : MonteCarloData) :
  let first := prepare_iteration_form data in
  let second := prepare_iteration_form (snd first) in
  fst second = fst first
  ∧ ∀ k l,
      f (snd second) k = f (snd first) k
      ∧ row_sum (snd second) k = row_sum (snd first) k
      ∧ C (snd second) k l = C (snd first) k l.
Proof.
  cbv zeta. unfold prepare_iteration_form.
  destruct (prepare_rows_shape (seqZ 0 (n data)) data)
    as (Hn & HA & Hb & Hret & Hk).
  set (data1 := snd (prepare_rows data (seqZ 0 (n data)))) in *.
  destruct (prepare_rows_shape (seqZ 0 (n data1)) data1)
    as (_ & _ & _ & Hret2 & Hk2).
  rewrite Hn, HA in Hret2, Hk2. rewrite Hb in Hk2. rewrite Hn.
  split; [by rewrite Hret2, Hret|].
  intros k l. destruct (Hk k) as (Hf & Hrs & HC).
  destruct (Hk2 k) as (Hf2 & Hrs2 & HC2).
  rewrite Hf2, Hrs2, HC2, Hf, Hrs, HC.
  case_bool_decide; [|done]. simpl. by case_bool_decide.
Qed.


(** *** The walk: states visited and random numbers used *)

Section WalkBounds.

Variable RAND_MAX : Z.
Variable rand : N → Z.

Lemma select_next_state_in_range data cur r w :
  0 ≤ cur < n data →
  0 ≤ fst (select_next data cur r 0%float w (seqZ 0 (n data))) < n data.
Proof.
  intros Hcur. rewrite select_next_inversion. unfold inversion.
  destruct (find _ (seqZ 0 (n data))) as [j|] eqn:Hfind; simpl; [|done].
  apply find_some in Hfind as [Hin _].
  apply list_elem_of_In, elem_of_seqZ in Hin. lia.
Qed.

Lemma walk_body_state_in_range data st :
  0 ≤ current_state st < n data →
  0 ≤ current_state (fst (walk_body RAND_MAX rand data st)) < n data.
Proof.
  intros Hcur. unfold walk_body. cbn [rand_double].
  destruct (PrimFloat.ltb _ TERMINATION_PROB); [done|].
  destruct (PrimFloat.ltb (row_sum data (current_state st)) _); [done|].
  pose proof (select_next_state_in_range data (current_state st)
    (double_of_int (rand (N.succ (calls st)))
     / (double_of_int RAND_MAX + 1) * row_sum data (current_state st))%float
    (weight st) Hcur) as Hsel.
  by destruct (select_next _ _ _ _ _ _).
Qed.

Lemma walk_visits_in_range data fuel :
  ∀ st, 0 ≤ current_state st < n data →
    (∀ v, v ∈ walk_visits RAND_MAX rand fuel data st →
          0 ≤ current_state v < n data)
    ∧ ∀ st', walk_loop RAND_MAX rand fuel data st = Some st' →
             0 ≤ current_state st' < n data.
Proof.
  induction fuel as [|fuel IH]; intros st Hcur; cbn [walk_visits walk_loop].
  - split; [|done]. intros v Hv. by apply elem_of_nil in Hv.
  - destruct (step st <? MAX_STEPS).
    2:{ split; [|by intros st' [= <-]]. intros v Hv. by apply elem_of_nil in Hv. }
    pose proof (walk_body_state_in_range data st Hcur) as Hnext.
    destruct (walk_body RAND_MAX rand data st) as [st1 broke]. simpl in Hnext.
    destruct broke.
    + split; [|by intros st' [= <-]].
      intros v Hv. apply list_elem_of_singleton in Hv as ->. done.
    + destruct (IH (next_step st1) Hnext) as [Hvisits Hfinal].
      split; [|done]. intros v Hv.
      apply elem_of_cons in Hv as [->|Hv]; [done | by apply Hvisits].
Qed.

(** X15.  A walk started at a state below [n] never leaves the states
    [0 .. n-1]: every state in which the loop body runs, and the state the
    walk ends in, is one of them, so [f], [row_sum] and the rows of [C]
    are read inside the system's dimension. *)
Theorem walk_stays_inside_dimension
    (data : MonteCarloData) (start_state : Z) (k : N) (fuel : nat) :
  0 ≤ start_state < n data →
  (∀ v, v ∈ walk_visits RAND_MAX rand fuel data (walk_start start_state k) →
        0 ≤ current_state v < n data)
  ∧ ∀ st, walk_loop RAND_MAX rand fuel data (walk_start start_state k)
          = Some st →
          0 ≤ current_state st < n data.
Proof. intros Hstart. by apply walk_visits_in_range. Qed.

Lemma walk_body_calls data st :
  let next := calls (fst (walk_body RAND_MAX rand data st)) in
  (snd (walk_body RAND_MAX rand data st) = true → next = N.succ (calls st))
  ∧ (snd (walk_body RAND_MAX rand data st) = false →
     next = N.succ (N.succ (calls st))).
Proof.
  unfold walk_body. cbn [rand_double].
  destruct (PrimFloat.ltb _ TERMINATION_PROB); [done|].
  destruct (PrimFloat.ltb (row_sum data (current_state st)) _); [done|].
  by destruct (select_next _ _ _ _ _ _).
Qed.

Lemma walk_loop_calls data fuel :
  ∀ st st', 0 ≤ step st →
    walk_loop RAND_MAX rand fuel data st = Some st' →
    Z.of_N (calls st) ≤ Z.of_N (calls st')
                      ≤ Z.of_N (calls st) + 2 * Z.max 0 (MAX_STEPS - step st)
    ∧ (step st < MAX_STEPS → Z.of_N (calls st) < Z.of_N (calls st')).
Proof.
  induction fuel as [|fuel IH]; intros st st' Hstep; cbn [walk_loop]; [done|].
  destruct (Z.ltb_spec (step st) MAX_STEPS) as [Hlt|Hge].
  2:{ intros [= <-]. lia. }
  destruct (walk_body_calls data st) as [Hbreak Hcont].
  destruct (walk_body_sum_step RAND_MAX rand data st) as [_ Hsame].
  destruct (walk_body RAND_MAX rand data st) as [st1 broke].
  simpl in Hbreak, Hcont, Hsame. destruct broke.
  - intros [= <-]. rewrite (Hbreak eq_refl). lia.
  - intros Hloop. apply IH in Hloop; [|simpl; lia].
    simpl in Hloop. rewrite (Hcont eq_refl), Hsame in Hloop. lia.
Qed.

(** X16.  One call of [random_walk] makes at least one and at most
    20000 calls of [rand()]. *)
Theorem random_walk_rand_calls
    (data : MonteCarloData) (start_state : Z) (k k' : N) (w : float) :
  random_walk RAND_MAX rand data start_state k = Some (w, k') →
  (k + 1 ≤ k' ≤ k + 20000)%N.
Proof.
  unfold random_walk.
  destruct (walk_loop _ _ _ data (walk_start start_state k)) as [st|] eqn:Hloop;
    [|done].
  intros [= <- <-].
  apply walk_loop_calls in Hloop; [|simpl; lia].
  simpl in Hloop. unfold MAX_STEPS in Hloop. lia.
Qed.

End WalkBounds.

Lemma walk_stays_inside_dimension_witness :
  (∀ v, v ∈ walk_visits rand_max lcg 50 small_form (walk_start 1 0) →
        0 ≤ current_state v < n small_form)
  ∧ ∀ st, walk_loop rand_max lcg 50 small_form (walk_start 1 0) = Some st →
          0 ≤ current_state st < n small_form.
Proof.
  apply walk_stays_inside_dimension. apply conj.
  - apply Z.leb_le. vm_compute. reflexivity.
  - apply Z.ltb_lt. vm_compute. reflexivity.
Defined.

Lemma random_walk_rand_calls_witness :
  random_walk rand_max lcg small_form 0 0
  = Some (0.15845070430065386%float, 41%N)
  ∧ (0 + 1 ≤ 41 ≤ 0 + 20000)%N.
Proof.
  assert (H : random_walk rand_max lcg small_form 0 0
              = Some (0.15845070430065386%float, 41%N))
    by (vm_compute; reflexivity).
  split; [exact H|].
  exact (random_walk_rand_calls rand_max lcg small_form 0 0 41 _ H).
Defined.

(** *** [compute_solution] at its edges *)

Section ComputeEdges.

Variable RAND_MAX : Z.
Variable rand : N → Z.

Lemma compute_components_without_walks data idxs x k :
  num_walks data ≤ 0 →
  ∃ x', compute_components RAND_MAX rand data idxs x k = Some (x', k)
        ∧ (∀ idx, idx ∈ idxs →
             x' idx = (0 / double_of_int (num_walks data))%float)
        ∧ ∀ j, j ∉ idxs → x' j = x j.
Proof.
  intros Hnw. revert x. induction idxs as [|idx rest IH]; intros x;
    cbn [compute_components].
  - exists x. split; [done|]. split; [|done].
    intros idx Hidx. by apply elem_of_nil in Hidx.
  - replace (Z.to_nat (num_walks data)) with 0%nat by lia. simpl.
    destruct (IH (vset x idx (0 / double_of_int (num_walks data))%float))
      as (x' & Hx' & Hin & Hout).
    exists x'. split; [done|]. split.
    + intros j Hj. destruct (decide (j ∈ rest)) as [Hrest|Hrest];
        [by apply Hin|].
      apply elem_of_cons in Hj as [->|Hj]; [|done].
      rewrite (Hout idx Hrest). unfold vset. by rewrite Z.eqb_refl.
    + intros j Hj. rewrite not_elem_of_cons in Hj. destruct Hj as [Hne Hj].
      rewrite (Hout j Hj). unfold vset.
      by rewrite (proj2 (Z.eqb_neq j idx) Hne).
Qed.

(** X17.  With [num_walks] zero or negative [compute_solution] runs no
    walk and uses no random number; every component of the range gets
    [0.0 / num_walks], which for [num_walks = 0] is NaN. *)
Theorem compute_solution_without_walks
    (data : MonteCarloData) (x_partial : vector) (k : N) :
  num_walks data ≤ 0 →
  ∃ x',
    compute_solution RAND_MAX rand data x_partial k = Some (x', k)
    ∧ (∀ idx, 0 ≤ idx ≤ end_idx data - start_idx data →
         x' idx = (0 / double_of_int (num_walks data))%float)
    ∧ (num_walks data = 0 →
       ∀ idx, 0 ≤ idx ≤ end_idx data - start_idx data → x' idx = nan).
Proof.
  intros Hnw. unfold compute_solution.
  destruct (compute_components_without_walks data
              (seqZ 0 (end_idx data - start_idx data + 1)) x_partial k Hnw)
    as (x' & Hx' & Hin & _).
  exists x'. split; [done|].
  assert (Hall : ∀ idx, 0 ≤ idx ≤ end_idx data - start_idx data →
            x' idx = (0 / double_of_int (num_walks data))%float).
  { intros idx Hidx. apply Hin, elem_of_seqZ. lia. }
  split; [done|]. intros Hzero idx Hidx.
  rewrite (Hall idx Hidx), Hzero. reflexivity.
Qed.

(** X18.  [compute_solution] writes the elements [0 .. end_idx -
    start_idx] of [x_partial] and no other; with [end_idx < start_idx] it
    writes nothing and uses no random number. *)
Theorem compute_solution_writes_only_its_range
    (data : MonteCarloData) (x_partial x' : vector) (k k' : N) :
  compute_solution RAND_MAX rand data x_partial k = Some (x', k') →
  (∀ j, ¬ 0 ≤ j ≤ end_idx data - start_idx data → x' j = x_partial j)
  ∧ (end_idx data < start_idx data → k' = k ∧ ∀ j, x' j = x_partial j).
Proof.
  unfold compute_solution. intros Hcs.
  destruct (estimates_total RAND_MAX rand data
              (seqZ 0 (end_idx data - start_idx data + 1)) k)
    as (es & k1 & Hes & _).
  destruct (compute_components_estimates RAND_MAX rand data _ x_partial k
              es k1 (NoDup_seqZ _ _) Hes) as (x1 & Hx1 & _ & Hout).
  rewrite Hx1 in Hcs. injection Hcs as <- <-.
  assert (Hframe : ∀ j, ¬ 0 ≤ j ≤ end_idx data - start_idx data →
            x1 j = x_partial j).
  { intros j Hj. apply Hout. rewrite elem_of_seqZ. lia. }
  split; [done|]. intros Hempty. split.
  - rewrite seqZ_nil in Hes by lia. simpl in Hes. by injection Hes.
  - intros j. apply Hframe. lia.
Qed.

End ComputeEdges.

Lemma compute_solution_without_walks_witness :
  ∃ x',
    compute_solution rand_max lcg no_walks_form (λ _, 1%float) 5
    = Some (x', 5%N)
    ∧ (∀ idx, 0 ≤ idx ≤ end_idx no_walks_form - start_idx no_walks_form →
         x' idx = (0 / double_of_int (num_walks no_walks_form))%float)
    ∧ (num_walks no_walks_form = 0 →
       ∀ idx, 0 ≤ idx ≤ end_idx no_walks_form - start_idx no_walks_form →
              x' idx = nan).
Proof.
  apply compute_solution_without_walks. apply Z.leb_le. reflexivity.
Defined.

Lemma compute_solution_writes_only_its_range_witness :
  (∀ j, ¬ 0 ≤ j ≤ end_idx no_walks_form - start_idx no_walks_form →
        vset (vset (λ _, 1%float) 0 nan) 1 nan j = (λ _, 1%float) j)
  ∧ (end_idx no_walks_form < start_idx no_walks_form →
     5%N = 5%N
     ∧ ∀ j, vset (vset (λ _, 1%float) 0 nan) 1 nan j = (λ _, 1%float) j).
Proof.
  apply (compute_solution_writes_only_its_range rand_max lcg no_walks_form).
  reflexivity.
Defined.

(** *** The stand-alone solver against the work-unit solver *)

Section SimpleAgainstSolver.

Variable RAND_MAX : Z.
Variable rand : N → Z.

Lemma simple_select_next sys data cur r cumsum w js :
  Simple.same_arrays sys data →
  Simple.select_next sys cur r cumsum w js
  = select_next data cur r cumsum w js.
Proof.
  intros (_ & _ & _ & HC & _ & Hrs). revert cumsum.
  induction js as [|j rest IH]; intros cumsum; simpl; [done|].
  rewrite HC, Hrs. destruct (PrimFloat.leb r _); [done | apply IH].
Qed.

Lemma simple_walk_body sys data st :
  Simple.same_arrays sys data →
  Simple.walk_body RAND_MAX rand sys st = walk_body RAND_MAX rand data st.
Proof.
  intros Hsame. pose proof Hsame as (Hn & _ & _ & _ & Hf & Hrs).
  unfold Simple.walk_body, walk_body.
  cbn [Simple.rand_double rand_double].
  rewrite (simple_select_next sys data) by done.
  rewrite Hn, Hf, Hrs. reflexivity.
Qed.

Lemma simple_walk_loop sys data fuel st :
  Simple.same_arrays sys data →
  Simple.walk_loop RAND_MAX rand fuel sys st
  = walk_loop RAND_MAX rand fuel data st.
Proof.
  intros Hsame. revert st. induction fuel as [|fuel IH]; intros st; simpl;
    [done|].
  rewrite (simple_walk_body sys data) by done.
  change Simple.MAX_WALK_LENGTH with MAX_STEPS.
  destruct (step st <? MAX_STEPS); [|done].
  destruct (walk_body RAND_MAX rand data st) as [st1 []]; [done | apply IH].
Qed.

Lemma simple_random_walk sys data start_state k :
  Simple.same_arrays sys data →
  Simple.random_walk RAND_MAX rand sys start_state k
  = random_walk RAND_MAX rand data start_state k.
Proof.
  intros Hsame. unfold Simple.random_walk, random_walk.
  by rewrite (simple_walk_loop sys data).
Qed.

Lemma simple_sum_walks sys data count i sum k :
  Simple.same_arrays sys data →
  Simple.sum_walks RAND_MAX rand count sys i sum k
  = sum_walks RAND_MAX rand count data i sum k.
Proof.
  intros Hsame. revert sum k. induction count as [|count IH]; intros sum k;
    simpl; [done|].
  rewrite (simple_random_walk sys data) by done.
  destruct (random_walk RAND_MAX rand data i k) as [[w k1]|]; [apply IH | done].
Qed.

Lemma simple_solve_rows data rows :
  start_idx data = 0 →
  ∀ sys k,
    Simple.same_arrays sys data →
    option_map (λ p, (Simple.x_mc (fst p), snd p))
      (Simple.solve_rows RAND_MAX rand sys (num_walks data) rows k)
    = compute_components RAND_MAX rand data rows (Simple.x_mc sys) k
    ∧ ∀ sys' k',
        Simple.solve_rows RAND_MAX rand sys (num_walks data) rows k
        = Some (sys', k') →
        Simple.same_arrays sys' data
        ∧ Simple.x_direct sys' = Simple.x_direct sys.
Proof.
  intros Hstart. induction rows as [|i rest IH]; intros sys k Hsame; simpl.
  - split; [done|]. by intros sys' k' [= <- <-].
  - rewrite Hstart. simpl.
    rewrite (simple_sum_walks sys data) by done.
    replace (0 + i) with i by lia.
    destruct (sum_walks RAND_MAX rand _ data i 0%float k) as [[sum k1]|];
      [|split; [done | intros sys' k' H; discriminate H]].
    apply (IH (Simple.set_x_mc sys i
                 (sum / double_of_int (num_walks data))%float) k1).
    by destruct sys.
Qed.

(** X19.  [solve_monte_carlo] of [simpleAxbMC.c] computes what the
    work-unit solver computes for the whole range: started on the same
    [rand()] sequence it leaves in [x_mc] exactly what [compute_solution]
    leaves in [x_partial] for [start_idx = 0], [end_idx = n - 1] and the
    same number of walks, after the same number of calls of [rand()], and
    it changes nothing else in the system. *)
Theorem solve_monte_carlo_is_compute_solution
    (sys : Simple.LinearSystem) (num_walks : Z) (k : N) :
  option_map (λ p, (Simple.x_mc (fst p), snd p))
    (Simple.solve_monte_carlo RAND_MAX rand sys num_walks k)
  = compute_solution RAND_MAX rand (Simple.full_range_data sys num_walks)
      (Simple.x_mc sys) k
  ∧ ∀ sys' k',
      Simple.solve_monte_carlo RAND_MAX rand sys num_walks k
      = Some (sys', k') →
      Simple.n sys' = Simple.n sys ∧ Simple.A sys' = Simple.A sys
      ∧ Simple.b sys' = Simple.b sys ∧ Simple.C sys' = Simple.C sys
      ∧ Simple.f sys' = Simple.f sys
      ∧ Simple.row_sum sys' = Simple.row_sum sys
      ∧ Simple.x_direct sys' = Simple.x_direct sys.
Proof.
  unfold Simple.solve_monte_carlo, compute_solution.
  assert (Hsame : Simple.same_arrays sys (Simple.full_range_data sys num_walks))
    by (by destruct sys).
  destruct (simple_solve_rows (Simple.full_range_data sys num_walks)
              (seqZ 0 (Simple.n sys)) eq_refl sys k Hsame) as [Heq Hrest].
  simpl in Heq, Hrest |- *.
  replace (Simple.n sys - 1 - 0 + 1) with (Simple.n sys) by lia.
  split; [exact Heq|].
  intros sys' k' Hsolve. destruct (Hrest sys' k' Hsolve) as [Hs Hd].
  destruct Hs as (Hn & HA & Hb & HC & Hf & Hrs). simpl in *.
  by repeat split.
Qed.

End SimpleAgainstSolver.

End SolverExtras.

(* ===================================================================== *)
(** ** The PI validator and the PI application *)
(* ===================================================================== *)

Module PiExtras.
Import PiApp PiInputs.

(** X21.  [compare_results] of the PI validator does not depend on the
    order of the two results. *)
Theorem pi_compare_results_symmetric (pi1 pi2 : float) :
  PiValidator.compare_results pi1 pi2 = PiValidator.compare_results pi2 pi1.
Proof.
  unfold PiValidator.compare_results.
  by rewrite (FloatFacts.abs_sub_swap pi1 pi2), (FloatFacts.add_comm pi1 pi2).
Qed.

Lemma checkpoint_requests_empty env lo : checkpoint_requests env lo lo = 0.
Proof. unfold checkpoint_requests. by rewrite Z.sub_diag. Qed.

Lemma checkpoint_requests_succ env lo i :
  lo ≤ i →
  checkpoint_requests env lo (i + 1)
  = checkpoint_requests env lo i + (if time_to_checkpoint env i then 1 else 0).
Proof.
  intros Hle. unfold checkpoint_requests.
  replace (i + 1 - lo) with ((i - lo) + 1) by lia.
  rewrite (seqZ_app lo (i - lo) 1) by lia.
  rewrite List.filter_app, length_app.
  replace (lo + (i - lo)) with i by lia.
  change (seqZ i 1) with [0 + i]. replace (0 + i) with i by lia. simpl.
  destruct (time_to_checkpoint env i); simpl; lia.
Qed.

Section Run.

Variable RAND_MAX : Z.
Variable rand : Z → N → Z.
Variable env : environment.

Lemma iteration_invariant seed start bound st i r st' :
  iteration RAND_MAX rand env seed st i = (r, st') →
  iterations_completed (checkpoint_data st) = i →
  i < bound →
  run_invariant env start bound st →
  run_invariant env start bound st'
  ∧ iterations_completed (checkpoint_data st') = i + 1
  ∧ (r = 0 → all_written env start st → all_written env start st').
Proof.
  intros Hit Hi Hlt (Hiter & Hpoints & Hcalls & Hsaved).
  unfold iteration in Hit.
  set (x := (double_of_int (rand seed (calls st))
             / double_of_int RAND_MAX)%float) in Hit.
  set (y := (double_of_int (rand seed (N.succ (calls st)))
             / double_of_int RAND_MAX)%float) in Hit.
  set (points := if PrimFloat.leb (x * x + y * y)%float 1%float
                 then points_in_circle (checkpoint_data st) + 1
                 else points_in_circle (checkpoint_data st)) in Hit.
  assert (Hp : points_in_circle (checkpoint_data st) ≤ points
               ≤ points_in_circle (checkpoint_data st) + 1).
  { unfold points. destruct (PrimFloat.leb _ _); lia. }
  clearbody points. clear x y.
  pose proof (checkpoint_requests_succ env (iterations_completed start) i
                ltac:(lia)) as Hreq.
  unfold all_written, run_invariant.
  destruct (time_to_checkpoint env i) eqn:Htime.
  - assert (Hseed : 0 ≤ rand seed (N.succ (N.succ (calls st))) mod 2 ^ 32
                    < 2 ^ 32) by (apply Z.mod_pos_bound; lia).
    unfold write_checkpoint in Hit.
    destruct (negb (write_resolve env i =? 0)) eqn:Hres;
      [|destruct (negb (write_open env i)) eqn:Hopen];
      injection Hit as <- <-; simpl; rewrite ?Hi in *.
    + split; [|split; [done|]].
      * repeat split; try lia; done.
      * intros Hr. by rewrite Hr in Hres.
    + split; [|split; [done | intros [=]]].
      repeat split; try lia; done.
    + split; [|split; [done | intros _ Hall; simpl; lia]].
      repeat split; try lia; [].
      apply Forall_cons. split; [|done].
      unfold checkpoint_ok. simpl.
      replace (i + 1 - 1) with i by lia. repeat split; try lia; done.
  - injection Hit as <- <-. simpl. rewrite ?Hi in *.
    split; [|split; [done | intros _ Hall; lia]].
    repeat split; try lia; done.
Qed.

Lemma iterations_invariant seed start bound n :
  ∀ i st r st',
    iterations RAND_MAX rand env seed st (seqZ i (Z.of_nat n)) = (r, st') →
    iterations_completed (checkpoint_data st) = i →
    i + Z.of_nat n = bound →
    run_invariant env start bound st →
    run_invariant env start bound st'
    ∧ (r = 0 →
       iterations_completed (checkpoint_data st') = bound
       ∧ (all_written env start st → all_written env start st')).
Proof.
  induction n as [|n IH]; intros i st r st' Hrun Hi Hbound Hinv.
  - simpl in Hrun. injection Hrun as <- <-. split; [done|]. intros _.
    split; [lia | done].
  - rewrite (seqZ_cons i (Z.of_nat (S n))) in Hrun by lia.
    cbn [iterations] in Hrun.
    destruct (iteration RAND_MAX rand env seed st i) as [r1 st1] eqn:Hit.
    destruct (iteration_invariant seed start bound st i r1 st1 Hit Hi
                ltac:(lia) Hinv) as (Hinv1 & Hi1 & Hall1).
    destruct (negb (r1 =? 0)) eqn:Hr1.
    + injection Hrun as <- <-. split; [done|].
      intros Hr. by rewrite Hr in Hr1.
    + apply negb_false_iff, Z.eqb_eq in Hr1.
      replace (Z.pred (Z.of_nat (S n))) with (Z.of_nat n) in Hrun by lia.
      destruct (IH (Z.succ i) st1 r st' Hrun ltac:(lia) ltac:(lia) Hinv1)
        as (Hinv' & Hok).
      split; [done|]. intros Hr. destruct (Hok Hr) as [Hend Hall].
      split; [done|]. intros Hst. by apply Hall, Hall1.
Qed.

Lemma compute_pi_loop total :
  read_input_file (input_resolve env) (input_file env) 0 = (0, total) →
  ∃ r1 st,
    iterations RAND_MAX rand env (random_seed (start_data env))
      (mkRun (start_data env) 0 [])
      (seqZ (iterations_completed (start_data env))
            (total - iterations_completed (start_data env)))
    = (r1, st)
    ∧ state (compute_pi RAND_MAX rand env) = st
    ∧ (retval (compute_pi RAND_MAX rand env) = 0 → r1 = 0).
Proof.
  intros Hin. unfold compute_pi. rewrite Hin. simpl.
  destruct (iterations _ _ _ _ _ _) as [r1 st]. exists r1, st.
  split; [done|].
  destruct (negb (r1 =? 0)) eqn:Hr1; simpl.
  - split; [done|]. intros Hr. by rewrite Hr in Hr1.
  - apply negb_false_iff, Z.eqb_eq in Hr1.
    by destruct (write_output_file _ _ _ _).
Qed.

Lemma loop_invariant total r1 st :
  iterations RAND_MAX rand env (random_seed (start_data env))
    (mkRun (start_data env) 0 [])
    (seqZ (iterations_completed (start_data env))
          (total - iterations_completed (start_data env)))
  = (r1, st) →
  run_invariant env (start_data env)
    (Z.max (iterations_completed (start_data env)) total) st
  ∧ (r1 = 0 →
     iterations_completed (checkpoint_data st)
     = Z.max (iterations_completed (start_data env)) total
     ∧ all_written env (start_data env) st).
Proof.
  set (start := start_data env). intros Hloop.
  assert (Hlist : seqZ (iterations_completed start)
                       (total - iterations_completed start)
                  = seqZ (iterations_completed start)
                      (Z.of_nat (Z.to_nat
                                   (total - iterations_completed start)))).
  { destruct (Z.le_gt_cases 0 (total - iterations_completed start)).
    - by rewrite Z2Nat.id.
    - rewrite Z2Nat.nonpos by lia. by rewrite !seqZ_nil by lia. }
  rewrite Hlist in Hloop.
  destruct (iterations_invariant (random_seed start) start
              (Z.max (iterations_completed start) total) _ _ _ _ _ Hloop)
    as [Hinv Hok]; [done | lia | |].
  - unfold run_invariant. simpl. rewrite checkpoint_requests_empty.
    repeat split; try lia. constructor.
  - split; [done|]. intros Hr. destruct (Hok Hr) as [Hend Hall].
    split; [done|]. apply Hall. unfold all_written. simpl.
    by rewrite checkpoint_requests_empty.
Qed.

(** X22.  [compute_pi] never counts more hits than iterations: from the
    point it starts at (a checkpoint, or zero) to where it stops,
    [points_in_circle] grows by at most the number of iterations done,
    [iterations_completed] never passes the number of iterations asked
    for, and reaches it when the run returns 0. *)
Theorem hits_never_exceed_iterations (total : Z) :
  read_input_file (input_resolve env) (input_file env) 0 = (0, total) →
  let start := start_data env in
  let final := checkpoint_data (state (compute_pi RAND_MAX rand env)) in
  iterations_completed start ≤ iterations_completed final
    ≤ Z.max (iterations_completed start) total
  ∧ points_in_circle start ≤ points_in_circle final
    ≤ points_in_circle start
      + (iterations_completed final - iterations_completed start)
  ∧ (retval (compute_pi RAND_MAX rand env) = 0 →
     iterations_completed final
     = Z.max (iterations_completed start) total).
Proof.
  intros Hin. cbv zeta.
  destruct (compute_pi_loop total Hin) as (r1 & st & Hloop & -> & Hret).
  destruct (loop_invariant total r1 st Hloop)
    as [(Hiter & Hpoints & _ & _) Hok].
  split; [done|]. split; [done|].
  intros Hzero. by destruct (Hok (Hret Hzero)).
Qed.

(** X23.  A run calls [rand()] twice in every iteration it does and once
    more in every iteration in which BOINC asks for a checkpoint, whether
    or not the checkpoint can be written, and at no other time. *)
Theorem rand_calls_of_run (total : Z) :
  read_input_file (input_resolve env) (input_file env) 0 = (0, total) →
  let start := start_data env in
  let final := state (compute_pi RAND_MAX rand env) in
  Z.of_N (calls final)
  = 2 * (iterations_completed (checkpoint_data final)
         - iterations_completed start)
    + checkpoint_requests env (iterations_completed start)
        (iterations_completed (checkpoint_data final)).
Proof.
  intros Hin. cbv zeta.
  destruct (compute_pi_loop total Hin) as (r1 & st & Hloop & -> & _).
  by destruct (loop_invariant total r1 st Hloop) as [(_ & _ & Hcalls & _) _].
Qed.

(** X24.  Every checkpoint a run writes was written in an iteration
    that asked for one, holds an iteration count above the start and not
    above the total, no more hits than iterations since the start, and a
    seed that fits [unsigned int]; a run that returns 0 has written one
    checkpoint for every request. *)
Theorem checkpoints_written_are_consistent (total : Z) :
  read_input_file (input_resolve env) (input_file env) 0 = (0, total) →
  let start := start_data env in
  let run := compute_pi RAND_MAX rand env in
  Forall (checkpoint_ok env start total) (checkpoints (state run))
  ∧ (retval run = 0 →
     Z.of_nat (length (checkpoints (state run)))
     = checkpoint_requests env (iterations_completed start)
         (Z.max (iterations_completed start) total)).
Proof.
  intros Hin. cbv zeta.
  destruct (compute_pi_loop total Hin) as (r1 & st & Hloop & -> & Hret).
  destruct (loop_invariant total r1 st Hloop)
    as [(_ & _ & _ & Hsaved) Hok].
  split.
  - eapply Forall_impl; [exact Hsaved|].
    intros saved (Hiter & Htime & Hpoints & Hseed).
    unfold checkpoint_ok. repeat split; try done; lia.
  - intros Hzero. destruct (Hok (Hret Hzero)) as [Hend Hall].
    unfold all_written in Hall. by rewrite Hend in Hall.
Qed.

(** X25.  [compute_pi] returns 0 exactly when it has written the output
    file, and what it writes is the number of iterations read from the
    input and four times the hits over that number, after all the
    iterations are done. *)
Theorem output_written_iff_success :
  let run := compute_pi RAND_MAX rand env in
  let final := checkpoint_data (state run) in
  (retval run = 0 ↔ is_Some (output run))
  ∧ ∀ pi_estimate iterations,
      output run = Some (pi_estimate, iterations) →
      input_resolve env = 0
      ∧ input_file env = Some (Some iterations)
      ∧ iterations_completed final
        = Z.max (iterations_completed (start_data env)) iterations
      ∧ pi_estimate
        = (4.0 * double_of_int (points_in_circle final)
           / double_of_int iterations)%float.
Proof.
  cbv zeta.
  destruct (read_input_file (input_resolve env) (input_file env) 0)
    as [r0 total] eqn:Hin.
  destruct (Z.eq_dec r0 0) as [-> | Hr0].
  - destruct (compute_pi_loop total Hin) as (r1 & st & Hloop & Hst & _).
    destruct (loop_invariant total r1 st Hloop) as [_ Hok].
    assert (Hfile : input_resolve env = 0 ∧ input_file env = Some (Some total)).
    { unfold read_input_file in Hin.
      destruct (input_resolve env =? 0) eqn:Hres; simpl in Hin;
        [|injection Hin as Hbad _; rewrite Hbad in Hres; discriminate].
      apply Z.eqb_eq in Hres.
      destruct (input_file env) as [[n|]|]; try discriminate.
      by injection Hin as ->. }
    revert Hst. unfold compute_pi. rewrite Hin, Hloop. simpl.
    destruct (negb (r1 =? 0)) eqn:Hr1; simpl.
    + intros _. split.
      * split; [intros Hr; by rewrite Hr in Hr1 | by intros [? [=]]].
      * intros ? ? [=].
    + apply negb_false_iff, Z.eqb_eq in Hr1. destruct (Hok Hr1) as [Hend _].
      unfold write_output_file.
      destruct (negb (output_resolve env =? 0)) eqn:Hres;
        [|destruct (negb (output_open env))]; simpl; intros _.
      * split; [|intros ? ? [=]].
        split; [intros Hr; by rewrite Hr in Hres | by intros [? [=]]].
      * split; [|intros ? ? [=]].
        split; [done | by intros [? [=]]].
      * split; [split; [eauto | done]|].
        intros ? ? [= <- <-]. destruct Hfile as [Hres0 Hfile].
        by repeat split.
  - unfold compute_pi. rewrite Hin.
    assert (negb (r0 =? 0) = true) as ->
      by (by apply negb_true_iff, Z.eqb_neq).
    simpl. split; [|intros ? ? [=]].
    split; [done | by intros [? [=]]].
Qed.

End Run.

Lemma hits_never_exceed_iterations_witness :
  let start := start_data five_iterations in
  let final :=
    checkpoint_data
      (state (compute_pi SolverInputs.rand_max seeded_lcg five_iterations)) in
  iterations_completed start ≤ iterations_completed final
    ≤ Z.max (iterations_completed start) 5
  ∧ points_in_circle start ≤ points_in_circle final
    ≤ points_in_circle start
      + (iterations_completed final - iterations_completed start)
  ∧ (retval (compute_pi SolverInputs.rand_max seeded_lcg five_iterations) = 0 →
     iterations_completed final = Z.max (iterations_completed start) 5).
Proof.
  apply (hits_never_exceed_iterations SolverInputs.rand_max seeded_lcg
           five_iterations 5).
  reflexivity.
Defined.

Lemma rand_calls_of_run_witness :
  let start := start_data checkpoint_unwritable in
  let final :=
    state (compute_pi SolverInputs.rand_max seeded_lcg checkpoint_unwritable) in
  Z.of_N (calls final)
  = 2 * (iterations_completed (checkpoint_data final)
         - iterations_completed start)
    + checkpoint_requests checkpoint_unwritable (iterations_completed start)
        (iterations_completed (checkpoint_data final)).
Proof.
  apply (rand_calls_of_run SolverInputs.rand_max seeded_lcg
           checkpoint_unwritable 5).
  reflexivity.
Defined.

Lemma checkpoints_written_are_consistent_witness :
  let start := start_data five_iterations in
  let run := compute_pi SolverInputs.rand_max seeded_lcg five_iterations in
  Forall (checkpoint_ok five_iterations start 5) (checkpoints (state run))
  ∧ (retval run = 0 →
     Z.of_nat (length (checkpoints (state run)))
     = checkpoint_requests five_iterations (iterations_completed start)
         (Z.max (iterations_completed start) 5)).
Proof.
  apply (checkpoints_written_are_consistent SolverInputs.rand_max seeded_lcg
           five_iterations 5).
  reflexivity.
Defined.

End PiExtras.
